(** * pg_logging: the reader side of the shared circular log buffer

    A shallow embedding of [pg_logging.h] and [pl_funcs.c]: the record
    header [CollectedItem], the shared header [LoggingShmemHdr], the reset
    of the cursors ([reset_counters_in_shmem], [flush_logged_data]), the
    set-returning reader [get_logged_data] and the text input and output
    of the [error_level] type ([errlevel_in], [errlevel_out]).

    Conventions.  C integers are values of [Z]; every conversion the C
    code performs is written out ([to_uint32], [to_int32], [to_size_t]).
    The ABI is the usual LP64 one: [int] and [uint32] have 32 bits,
    [size_t] has 64, [char] is signed, integers are stored little-endian
    and [int] fields are 4-byte aligned.  Memory is a list of bytes; an
    access outside of an allocation is reported as [Fault].  The block
    that the reader allocates for a record holds the bytes of the header
    and, after them, the texts; the writers, whose code is in another
    file, appear as the changes they make to the shared store between
    two steps of the reader. *)

From Stdlib Require Import ZArith String List Bool Lia.
From Stdlib Require Import Strings.Byte.
Import ListNotations.
Open Scope Z_scope.

(** ** Results of calls *)

(** The [elog(ERROR, ...)] calls a backend function of this extension
    can end in. *)
Inductive pg_error : Type :=
| EmptyName           (* "Empty status name" *)
| UnknownLevel        (* "Unknown level name: %s" *)
| InvalidLevel        (* "Invalid error level name" *)
| InvalidAllocSize.   (* palloc0: "invalid memory alloc request size" *)

Inductive result (A : Type) : Type :=
| Ok (a : A)
| Elog (e : pg_error)   (* the call raises an ERROR *)
| Fault                 (* access outside an allocation, undefined in C *)
| Blocked               (* LWLockAcquire on a lock that is held *)
| OutOfFuel.            (* the loop did not finish within the fuel *)

Arguments Ok {A} a.
Arguments Elog {A} e.
Arguments Fault {A}.
Arguments Blocked {A}.
Arguments OutOfFuel {A}.

Definition bind {A B : Type} (m : result A) (k : A -> result B) : result B :=
  match m with
  | Ok a => k a
  | Elog e => Elog e
  | Fault => Fault
  | Blocked => Blocked
  | OutOfFuel => OutOfFuel
  end.

Notation "'let*' x ':=' m 'in' k" := (bind m (fun x => k))
  (at level 10, x pattern, m at level 100, k at level 200).

(** ** Machine integers *)

Definition to_uint32 (x : Z) : Z := x mod 2 ^ 32.
Definition to_int32 (x : Z) : Z := (x + 2 ^ 31) mod 2 ^ 32 - 2 ^ 31.
Definition to_size_t (x : Z) : Z := x mod 2 ^ 64.
Definition to_schar (x : Z) : Z := (x + 128) mod 256 - 128.

Definition is_uint32 (x : Z) : Prop := 0 <= x < 2 ^ 32.
Definition is_int32 (x : Z) : Prop := - 2 ^ 31 <= x < 2 ^ 31.

(** ** Memory *)

Definition len {A : Type} (l : list A) : Z := Z.of_nat (List.length l).

Definition byte_val (b : byte) : Z := Z.of_N (Byte.to_N b).

(** Reading [n] bytes at offset [off] of an allocation. *)
Definition load (mem : list byte) (off n : Z) : result (list byte) :=
  if (0 <=? off) && (0 <=? n) && (off + n <=? len mem)
  then Ok (firstn (Z.to_nat n) (skipn (Z.to_nat off) mem))
  else Fault.

(** [memcpy(dst + doff, src, length src)]. *)
Definition memcpy (dst : list byte) (doff : Z) (src : list byte)
  : result (list byte) :=
  if (0 <=? doff) && (doff + len src <=? len dst)
  then Ok (firstn (Z.to_nat doff) dst ++ src
             ++ skipn (Z.to_nat (doff + len src)) dst)
  else Fault.

(** [palloc0(size)]: PostgreSQL refuses a request above [MaxAllocSize]
    and returns a zero-filled block otherwise. *)
Definition MaxAllocSize : Z := 0x3fffffff.

Definition palloc0 (size : Z) : result (list byte) :=
  if size <=? MaxAllocSize
  then Ok (repeat x00 (Z.to_nat size))
  else Elog InvalidAllocSize.

Definition le_uint32 (bs : list byte) : Z :=
  match bs with
  | [b0; b1; b2; b3] =>
      byte_val b0 + 2 ^ 8 * byte_val b1 + 2 ^ 16 * byte_val b2
      + 2 ^ 24 * byte_val b3
  | _ => 0
  end.

Definition load_int (mem : list byte) (off : Z) : result Z :=
  let* bs := load mem off 4 in Ok (to_int32 (le_uint32 bs)).

Definition load_char (mem : list byte) (off : Z) : result Z :=
  let* bs := load mem off 1 in
  Ok (to_schar (byte_val (hd x00 bs))).

(** The C string starting at [off]: the bytes before the first NUL.
    Running off the end of the block is a [Fault]. *)
Fixpoint until_nul (bs : list byte) : result (list byte) :=
  match bs with
  | [] => Fault
  | b :: rest =>
      if Byte.eqb b x00 then Ok []
      else let* s := until_nul rest in Ok (b :: s)
  end.

Definition cstring_at (blk : list byte) (off : Z) : result (list byte) :=
  if (0 <=? off) && (off <=? len blk)
  then until_nul (skipn (Z.to_nat off) blk)
  else Fault.

(** ** pg_logging.h *)

(** [CollectedItem] with [CHECK_DATA] defined, as a block of memory:
    the header fields, the [ITEM_HDR_LEN] bytes [item_hdr] that hold them
    at the start of the block, and the flexible array [data] with the
    texts, which follows these bytes in the same block. *)
Record CollectedItem : Type := mkItem {
  magic : Z;
  totallen : Z;
  saved_errno : Z;
  elevel : Z;
  message_len : Z;
  detail_len : Z;
  hint_len : Z;
  item_hdr : list byte;
  item_data : list byte
}.

(** Field offsets of [CollectedItem]; [elevel] is followed by three
    bytes of padding. *)
Definition off_magic : Z := 0.
Definition off_totallen : Z := 4.
Definition off_saved_errno : Z := 8.
Definition off_elevel : Z := 12.
Definition off_message_len : Z := 16.
Definition off_detail_len : Z := 20.
Definition off_hint_len : Z := 24.

(** [offsetof(CollectedItem, data)]. *)
Definition ITEM_HDR_LEN : Z := 28.

Definition PG_ITEM_MAGIC : Z := 0x06054AB5.

Record LoggingShmemHdr : Type := mkHdr {
  data : list byte;
  endpos : Z;          (* pg_atomic_uint32 *)
  readpos : Z;         (* volatile uint32 *)
  buffer_size : Z;     (* int *)
  hdr_lock : bool;     (* true when the LWLock is held *)
  wraparound : bool
}.

Definition set_endpos (v : Z) (h : LoggingShmemHdr) : LoggingShmemHdr :=
  mkHdr (data h) v (readpos h) (buffer_size h) (hdr_lock h) (wraparound h).
Definition set_readpos (v : Z) (h : LoggingShmemHdr) : LoggingShmemHdr :=
  mkHdr (data h) (endpos h) v (buffer_size h) (hdr_lock h) (wraparound h).
Definition set_lock (v : bool) (h : LoggingShmemHdr) : LoggingShmemHdr :=
  mkHdr (data h) (endpos h) (readpos h) (buffer_size h) v (wraparound h).

Record ErrorLevel : Type := mkLevel {
  text : option string;   (* None is the NULL pointer *)
  code : Z
}.

(** ** Locks and atomics *)

Definition LWLockAcquire (h : LoggingShmemHdr) : result LoggingShmemHdr :=
  if hdr_lock h then Blocked else Ok (set_lock true h).

Definition LWLockRelease (h : LoggingShmemHdr) : LoggingShmemHdr :=
  set_lock false h.

(** [pg_atomic_compare_exchange_u32(&hdr->endpos, &expected, newval)]:
    the success flag, the value left in [expected] and the header. *)
Definition pg_atomic_compare_exchange_u32
  (h : LoggingShmemHdr) (expected newval : Z) : bool * Z * LoggingShmemHdr :=
  if endpos h =? expected
  then (true, expected, set_endpos newval h)
  else (false, endpos h, h).

(** What the writers do to [endpos] while the reset runs: one entry for
    each attempt of the reset, [Some v] when the writers have moved the
    cursor to [v] since the previous attempt (or since the first read of
    the cursor), [None] when they have not.  Past the end of the list the
    writers are quiet. *)
Definition producers : Type := list (option Z).

Definition producer_move (mv : option Z) (h : LoggingShmemHdr)
  : LoggingShmemHdr :=
  match mv with
  | Some v => set_endpos v h
  | None => h
  end.

(** ** pl_funcs.c: the error levels *)

(** [strlen] of a C string; the characters of [str] are the bytes
    before the terminating NUL. *)
Definition strlen (str : string) : Z := Z.of_nat (String.length str).

(** The hash table has the slots 0 .. [MAX_HASH_VALUE]. *)
Definition MAX_HASH_VALUE : nat := 21.

Section ErrorLevels.

(** [extern struct ErrorLevel errlevel_wordlist[]]: the table is
    generated by gperf into a file of its own, outside [pl_funcs.c] and
    [pg_logging.h]; it is a parameter here. *)
Variable errlevel_wordlist : list ErrorLevel.

(** Modelled from the spec: [get_errlevel], the lookup function that
    gperf generates, is declared in [pg_logging.h] and defined outside
    [pl_funcs.c].  The specification describes it as a case-sensitive
    exact match of the name against the entries of the table, with no
    result when no entry matches. *)
Definition get_errlevel (str : string) (len : Z) : option ErrorLevel :=
  find (fun el => match text el with
                  | Some t => String.eqb t str
                  | None => false
                  end)
       errlevel_wordlist.

(** The [for] loop of [get_errlevel_name], over the indices [idx] that
    are left. *)
Fixpoint get_errlevel_name_loop (idx : list nat) (c : Z) : result string :=
  match idx with
  | [] => Elog InvalidLevel
  | i :: rest =>
      match nth_error errlevel_wordlist i with
      | None => Fault
      | Some el =>
          match text el with
          | Some t =>
              if code el =? c then Ok t else get_errlevel_name_loop rest c
          | None => get_errlevel_name_loop rest c
          end
      end
  end.

Definition get_errlevel_name (c : Z) : result string :=
  get_errlevel_name_loop (seq 0 (S MAX_HASH_VALUE)) c.

Definition errlevel_out (arg : Z) : result string :=
  get_errlevel_name arg.

Definition errlevel_in (str : string) : result Z :=
  let len := to_int32 (strlen str) in
  if len =? 0 then Elog EmptyName
  else match get_errlevel str len with
       | None => Elog UnknownLevel
       | Some el => Ok (code el)
       end.

End ErrorLevels.

(** ** pl_funcs.c: reset *)

(** The [while (true)] loop of [reset_counters_in_shmem]. *)
Fixpoint reset_endpos_loop (fuel : nat) (ps : producers)
  (h : LoggingShmemHdr) (curpos : Z) : result LoggingShmemHdr :=
  match fuel with
  | O => OutOfFuel
  | S fuel' =>
      let h1 := producer_move (hd None ps) h in
      match pg_atomic_compare_exchange_u32 h1 curpos 0 with
      | (true, _, h2) => Ok h2
      | (false, curpos', h2) => reset_endpos_loop fuel' (tl ps) h2 curpos'
      end
  end.

Definition reset_counters_in_shmem (fuel : nat) (ps : producers)
  (h : LoggingShmemHdr) : result LoggingShmemHdr :=
  let curpos := endpos h in
  let* h1 := LWLockAcquire h in
  let* h2 := reset_endpos_loop fuel ps h1 curpos in
  let h3 := set_readpos 0 h2 in
  Ok (LWLockRelease h3).

Definition flush_logged_data (fuel : nat) (ps : producers)
  (h : LoggingShmemHdr) : result LoggingShmemHdr :=
  reset_counters_in_shmem fuel ps h.

(** ** pl_funcs.c: the reader *)

Record logged_data_ctx : Type := mkCtx {
  until : Z;               (* uint32 *)
  startpos : Z;            (* uint32 *)
  ctx_wraparound : bool    (* usercxt->wraparound *)
}.

Definition set_ctx_wraparound (v : bool) (c : logged_data_ctx)
  : logged_data_ctx :=
  mkCtx (until c) (startpos c) v.

(** One tuple of the result: the six attributes of [pg_logging_data];
    [None] is a NULL attribute. *)
Record log_row : Type := mkRow {
  row_level : Z;
  row_errno : Z;
  row_message : list byte;
  row_detail : option (list byte);
  row_hint : option (list byte);
  row_position : Z
}.

Inductive srf_return : Type :=
| SRF_RETURN_NEXT (usercxt : logged_data_ctx) (htup : log_row)
| SRF_RETURN_DONE.

(** The first call: take the lock and fill the user context. *)
Definition first_call_init (h : LoggingShmemHdr)
  : result (LoggingShmemHdr * logged_data_ctx) :=
  let* h1 := LWLockAcquire h in
  let until_ := endpos h1 in
  Ok (h1, mkCtx until_ (readpos h1) (until_ <? readpos h1)).

(** The condition of the [while] loop. *)
Definition loop_cond (h : LoggingShmemHdr) (c : logged_data_ctx) : bool :=
  (negb (ctx_wraparound c) && (readpos h <? until c))
  || (ctx_wraparound c && (readpos h >? until c)).

(** [hdr->readpos + ITEM_HDR_LEN > hdr->buffer_size], compared as
    [size_t]. *)
Definition header_past_end (h : LoggingShmemHdr) : bool :=
  to_size_t (readpos h + ITEM_HDR_LEN) >? to_size_t (buffer_size h).

(** [hdr->readpos + item->totallen >= hdr->buffer_size], compared as
    [unsigned int]. *)
Definition two_parts (h : LoggingShmemHdr) (tl : Z) : bool :=
  to_uint32 (readpos h + tl) >=? to_uint32 (buffer_size h).

(** [int taillen = hdr->buffer_size - hdr->readpos - ITEM_HDR_LEN]. *)
Definition taillen_of (h : LoggingShmemHdr) : Z :=
  to_int32 (to_size_t (to_uint32 (buffer_size h - readpos h) - ITEM_HDR_LEN)).

(** The header of the record at [pos], as
    [memcpy(item, data, offsetof(CollectedItem, data))] leaves it in the
    fresh block: the bytes [raw] and the fields read from them; [blk] is
    the zero-filled data area of the block. *)
Definition copy_header (mem : list byte) (pos : Z) (blk : list byte)
  : result CollectedItem :=
  let* raw := load mem pos ITEM_HDR_LEN in
  let* m := load_int mem (pos + off_magic) in
  let* tl := load_int mem (pos + off_totallen) in
  let* en := load_int mem (pos + off_saved_errno) in
  let* lv := load_char mem (pos + off_elevel) in
  let* ml := load_int mem (pos + off_message_len) in
  let* dl := load_int mem (pos + off_detail_len) in
  let* hl := load_int mem (pos + off_hint_len) in
  Ok (mkItem m tl en lv ml dl hl raw blk).

Definition set_item_data (d : list byte) (it : CollectedItem)
  : CollectedItem :=
  mkItem (magic it) (totallen it) (saved_errno it) (elevel it)
         (message_len it) (detail_len it) (hint_len it) (item_hdr it) d.

(** The block [palloc0(item->totallen)] with the header copied in. *)
Definition alloc_item (h : LoggingShmemHdr) : result CollectedItem :=
  let* tl := load_int (data h) (readpos h + off_totallen) in
  let* blk := palloc0 (to_size_t tl) in
  if len blk <? ITEM_HDR_LEN then Fault
  else copy_header (data h) (readpos h)
         (skipn (Z.to_nat ITEM_HDR_LEN) blk).

(** The two branches that copy the texts and move [readpos]. *)
Definition copy_texts (h : LoggingShmemHdr) (c : logged_data_ctx)
  (item : CollectedItem)
  : result (CollectedItem * LoggingShmemHdr * logged_data_ctx) :=
  let src := readpos h + ITEM_HDR_LEN in
  if two_parts h (totallen item) then
    let taillen := taillen_of h in
    let* tail := load (data h) src (to_size_t taillen) in
    let* d1 := memcpy (item_data item) 0 tail in
    let c1 := set_ctx_wraparound false c in
    let h1 := set_readpos (to_uint32 (readpos h + totallen item)) h in
    let h2 := set_readpos (to_uint32 (readpos h1 - buffer_size h1)) h1 in
    let* head := load (data h2) 0 (readpos h2) in
    let* d2 := memcpy d1 taillen head in
    Ok (set_item_data d2 item, h2, c1)
  else
    let* texts :=
      load (data h) src (to_size_t (totallen item - ITEM_HDR_LEN)) in
    let* d1 := memcpy (item_data item) 0 texts in
    let h1 := set_readpos (to_uint32 (readpos h + totallen item)) h in
    Ok (set_item_data d1 item, h1, c).

(** The block of an item: the bytes of the header, then the texts. *)
Definition item_block (item : CollectedItem) : list byte :=
  item_hdr item ++ item_data item.

(** The attributes of the tuple.  The pointer [data] starts at
    [item->data], which is [ITEM_HDR_LEN] bytes into the block, and is
    moved by the length fields; a negative length moves it back, also
    into the bytes of the header. *)
Definition form_tuple (item : CollectedItem) (curpos : Z) : result log_row :=
  let blk := item_block item in
  let d := ITEM_HDR_LEN in
  let* msg := cstring_at blk d in
  let off1 := d + message_len item in
  let* det :=
    if detail_len item =? 0 then Ok None
    else let* t := cstring_at blk off1 in Ok (Some t) in
  let off2 := if detail_len item =? 0 then off1 else off1 + detail_len item in
  let* hnt :=
    if hint_len item =? 0 then Ok None
    else let* t := cstring_at blk off2 in Ok (Some t) in
  Ok (mkRow (elevel item) (saved_errno item) msg det hnt curpos).

(** The body of the loop after the check for the end of the buffer.
    [AssertPointerAlignment] is empty in a build without assertions and
    is left out. *)
Definition next_item (h : LoggingShmemHdr) (c : logged_data_ctx)
  : result (srf_return * LoggingShmemHdr) :=
  let curpos := to_int32 (readpos h) in
  let* item := alloc_item h in
  let* (item1, h1, c1) := copy_texts h c item in
  let* row := form_tuple item1 curpos in
  Ok (SRF_RETURN_NEXT c1 row, h1).

(** The [while] loop of one call. *)
Fixpoint get_logged_data_loop (fuel : nat) (h : LoggingShmemHdr)
  (c : logged_data_ctx) : result (srf_return * LoggingShmemHdr) :=
  match fuel with
  | O => OutOfFuel
  | S fuel' =>
      if loop_cond h c then
        if header_past_end h
        then get_logged_data_loop fuel'
               (set_readpos 0 h) (set_ctx_wraparound false c)
        else next_item h c
      else Ok (SRF_RETURN_DONE, LWLockRelease h)
  end.

(** One call of the set-returning function; [user_fctx] is [None] on
    the first call. *)
Definition get_logged_data (fuel : nat) (user_fctx : option logged_data_ctx)
  (h : LoggingShmemHdr) : result (srf_return * LoggingShmemHdr) :=
  let* (h1, c) :=
    match user_fctx with
    | None => first_call_init h
    | Some c => Ok (h, c)
    end in
  get_logged_data_loop fuel h1 c.

(** A whole session, as the executor runs it: call until done.  Between
    two calls the writers may move [endpos] ([ps], one entry for each
    call after the first); they write outside the arena bytes that the
    session reads.  [session_calls], further down, is the session with
    writers that write anywhere in the arena. *)
Fixpoint drain_calls (calls fuel : nat) (ps : producers)
  (user_fctx : option logged_data_ctx) (h : LoggingShmemHdr)
  : result (list log_row * LoggingShmemHdr) :=
  match calls with
  | O => OutOfFuel
  | S calls' =>
      let* (r, h1) := get_logged_data fuel user_fctx h in
      match r with
      | SRF_RETURN_DONE => Ok ([], h1)
      | SRF_RETURN_NEXT c row =>
          let* (rows, h2) :=
            drain_calls calls' fuel (tl ps) (Some c)
              (producer_move (hd None ps) h1) in
          Ok (row :: rows, h2)
      end
  end.

Definition drain (calls fuel : nat) (ps : producers) (h : LoggingShmemHdr)
  : result (list log_row * LoggingShmemHdr) :=
  drain_calls calls fuel ps None h.

(** ** Notions used in the statements *)

(** The state in which the loop of a call is left: the one the call
    started in, or that one after the jump to the start of the buffer. *)
Definition at_or_rewound (h : LoggingShmemHdr) (c : logged_data_ctx)
  (h0 : LoggingShmemHdr) (c0 : logged_data_ctx) : Prop :=
  (h0 = h /\ c0 = c)
  \/ (loop_cond h c = true /\ header_past_end h = true
      /\ h0 = set_readpos 0 h /\ c0 = set_ctx_wraparound false c).

(** The offset at which a call reads a header, if it reads one. *)
Definition read_offset (h : LoggingShmemHdr) : Z :=
  if header_past_end h then 0 else readpos h.

Definition on_hdr {A : Type} (f : LoggingShmemHdr -> LoggingShmemHdr)
  (r : result (A * LoggingShmemHdr)) : result (A * LoggingShmemHdr) :=
  let* (a, h) := r in Ok (a, f h).

(** Where a row comes from: a call on a store [hk] with the arena and
    the size of [h] has returned it, and its position is the offset at
    which that call read the header, which is [readpos hk], or 0 after
    the jump to the start of the arena. *)
Definition read_at_position (h : LoggingShmemHdr) (row : log_row) : Prop :=
  exists fuel user_fctx hk c' hk',
    data hk = data h /\ buffer_size hk = buffer_size h
    /\ get_logged_data fuel user_fctx hk = Ok (SRF_RETURN_NEXT c' row, hk')
    /\ row_position row = read_offset hk.

(** The first entry of [l] that has a name and the code [c]: what the
    loop of [get_errlevel_name] computes when [l] is the whole table. *)
Fixpoint scan_levels (l : list ErrorLevel) (c : Z) : result string :=
  match l with
  | [] => Elog InvalidLevel
  | el :: rest =>
      match text el with
      | Some t => if code el =? c then Ok t else scan_levels rest c
      | None => scan_levels rest c
      end
  end.

(** Modelled from the spec: the contents of [errlevel_wordlist], which
    [pg_logging.h] only declares.  The specification describes the table
    as a static mapping between level names and level codes; with the
    bound of the loop in [get_errlevel_name] this gives a table of
    [MAX_HASH_VALUE + 1] slots in which every name is a non-empty C
    string and no two names have the same code. *)
Definition registry_ok (wl : list ErrorLevel) : Prop :=
  length wl = S MAX_HASH_VALUE
  /\ (forall el t, In el wl -> text el = Some t ->
                   0 < strlen t <= MaxAllocSize)
  /\ (forall e1 e2 t1 t2,
        In e1 wl -> In e2 wl -> text e1 = Some t1 -> text e2 = Some t2 ->
        code e1 = code e2 -> t1 = t2).

(** ** Arenas for the examples

    The bytes of a record as the loads above read them back: the seven
    header fields at their offsets, then the texts. *)

Definition byte_of_Z (x : Z) : byte :=
  match Byte.of_N (Z.to_N (x mod 256)) with
  | Some b => b
  | None => x00
  end.

Definition int_bytes (x : Z) : list byte :=
  [byte_of_Z x; byte_of_Z (x / 2 ^ 8); byte_of_Z (x / 2 ^ 16);
   byte_of_Z (x / 2 ^ 24)].

Definition cstr (s : string) : list byte :=
  list_byte_of_string s ++ [x00].

Definition item_bytes (mg en lv : Z) (msg det hnt : list byte) : list byte :=
  int_bytes mg
  ++ int_bytes (ITEM_HDR_LEN + len msg + len det + len hnt)
  ++ int_bytes en
  ++ [byte_of_Z lv; x00; x00; x00]
  ++ int_bytes (len msg) ++ int_bytes (len det) ++ int_bytes (len hnt)
  ++ msg ++ det ++ hnt.

Definition zeros (n : nat) : list byte := repeat x00 n.

(** A rotation to the left: the first [n] bytes go to the end. *)
Definition rotl (n : nat) (l : list byte) : list byte :=
  skipn n l ++ firstn n l.

(** A record of 36 bytes: level 20, errno 2, message "abc", no detail,
    hint "hi!". *)
Definition sample_item (mg : Z) : list byte :=
  item_bytes mg 2 20 (cstr "abc") [] (cstr "hi!").

(** An arena of 64 bytes whose only record starts at offset 32 and
    continues at offset 0; a session that has just started on it. *)
Definition straddling_store : LoggingShmemHdr :=
  mkHdr (rotl 60 (zeros 28 ++ sample_item PG_ITEM_MAGIC)) 4 32 64 true false.
Definition straddling_ctx : logged_data_ctx := mkCtx 4 32 true.

(** An arena of 64 bytes whose only record starts at offset 28 and ends
    with the arena. *)
Definition exact_end_store : LoggingShmemHdr :=
  mkHdr (zeros 28 ++ sample_item PG_ITEM_MAGIC) 0 28 64 true false.
Definition exact_end_ctx : logged_data_ctx := mkCtx 0 28 true.

(** An arena of 64 bytes with one record at offset 0, before any
    session; [mg] is the magic of the record. *)
Definition one_item_store (mg : Z) : LoggingShmemHdr :=
  mkHdr (sample_item mg ++ zeros 28) 36 0 64 false false.

(** An arena of 64 bytes with one record at offset 0, and a session
    whose [readpos], at 40, is too close to the end for a header. *)
Definition rewinding_store : LoggingShmemHdr :=
  mkHdr (sample_item PG_ITEM_MAGIC ++ zeros 28) 36 40 64 true false.
Definition rewinding_ctx : logged_data_ctx := mkCtx 36 40 true.

Definition sample_row (pos : Z) : log_row :=
  mkRow 20 2 (list_byte_of_string "abc") None
        (Some (list_byte_of_string "hi!")) pos.

(** A table of the shape gperf generates, for the examples. *)
Definition no_level : ErrorLevel := mkLevel None 0.
Definition named (t : string) (c : Z) : ErrorLevel := mkLevel (Some t) c.

Definition example_wordlist : list ErrorLevel :=
  [no_level; no_level; no_level; named "log" 15; named "info" 17;
   named "error" 20; named "notice" 18; named "warning" 19;
   no_level; no_level; named "fatal" 21; no_level; no_level;
   named "panic" 22; no_level; no_level; no_level; no_level;
   named "debug" 14; no_level; no_level; no_level].

(** ** Events and their layout in the arena *)

(** What a record carries; [None] is an absent detail or hint. *)
Record log_event : Type := mkEvent {
  ev_level : Z;
  ev_errno : Z;
  ev_message : list byte;
  ev_detail : option (list byte);
  ev_hint : option (list byte)
}.

(** A text with its terminator; an absent text takes no byte. *)
Definition opt_cstr (o : option (list byte)) : list byte :=
  match o with
  | Some s => s ++ [x00]
  | None => []
  end.

(** The bytes of the record of an event, header first, as
    [CollectedItem] lays them out. *)
Definition event_bytes (ev : log_event) : list byte :=
  item_bytes PG_ITEM_MAGIC (ev_errno ev) (ev_level ev)
    (ev_message ev ++ [x00]) (opt_cstr (ev_detail ev))
    (opt_cstr (ev_hint ev)).

(** The same record with [mg] in its [magic] field, whatever [mg] is. *)
Definition record_bytes (mg : Z) (ev : log_event) : list byte :=
  item_bytes mg (ev_errno ev) (ev_level ev)
    (ev_message ev ++ [x00]) (opt_cstr (ev_detail ev))
    (opt_cstr (ev_hint ev)).

(** The tuple of an event whose record starts at [pos]. *)
Definition event_row (ev : log_event) (pos : Z) : log_row :=
  mkRow (ev_level ev) (ev_errno ev) (ev_message ev) (ev_detail ev)
        (ev_hint ev) pos.

Definition no_nul (s : list byte) : Prop := ~ In x00 s.

Definition opt_no_nul (o : option (list byte)) : Prop :=
  match o with
  | Some s => no_nul s
  | None => True
  end.

(** An event that a record can hold: the level is a [char], the errno
    an [int], the texts are C strings, and the record is one that
    [palloc0] accepts. *)
Definition event_ok (ev : log_event) : Prop :=
  -128 <= ev_level ev < 128
  /\ is_int32 (ev_errno ev)
  /\ no_nul (ev_message ev)
  /\ opt_no_nul (ev_detail ev)
  /\ opt_no_nul (ev_hint ev)
  /\ len (event_bytes ev) <= MaxAllocSize.

(** The [n] bytes of the arena from offset [off] on, continuing at
    offset 0 after the last byte. *)
Definition ring_read (mem : list byte) (off n : Z) : list byte :=
  map (fun i => nth (Z.to_nat ((off + Z.of_nat i) mod len mem)) mem x00)
      (seq 0 (Z.to_nat n)).

(** The offset after a record of [n] bytes at [pos] in an arena of
    [size] bytes. *)
Definition ring_next (size pos n : Z) : Z := (pos + n) mod size.

(** The header of every record of the sequence that starts at [pos]
    ends before the end of the arena. *)
Fixpoint headers_fit (size pos : Z) (evs : list log_event) : Prop :=
  match evs with
  | [] => True
  | ev :: rest =>
      pos + ITEM_HDR_LEN <= size
      /\ headers_fit size (ring_next size pos (len (event_bytes ev))) rest
  end.

(** The tuples of the sequence of records that starts at [pos]. *)
Fixpoint event_rows (size pos : Z) (evs : list log_event) : list log_row :=
  match evs with
  | [] => []
  | ev :: rest =>
      event_row ev pos
      :: event_rows size (ring_next size pos (len (event_bytes ev))) rest
  end.

(** The bytes of a sequence of records. *)
Definition events_bytes (evs : list log_event) : list byte :=
  concat (map event_bytes evs).

Definition set_wraparound (v : bool) (h : LoggingShmemHdr)
  : LoggingShmemHdr :=
  mkHdr (data h) (endpos h) (readpos h) (buffer_size h) (hdr_lock h) v.

(** No two entries of the table have the same name with different
    codes. *)
Definition names_unique (wl : list ErrorLevel) : Prop :=
  forall e1 e2 t,
    In e1 wl -> In e2 wl -> text e1 = Some t -> text e2 = Some t ->
    code e1 = code e2.

(** Two events for the examples, of 36 and 44 bytes. *)
Definition sample_event : log_event :=
  mkEvent 20 2 (list_byte_of_string "abc") None
          (Some (list_byte_of_string "hi!")).
Definition other_event : log_event :=
  mkEvent 19 (-1) (list_byte_of_string "no room") (Some [])
          (Some (list_byte_of_string "fix me")).

(** A call that has come back: with a result, an ERROR or a fault. *)
Definition settled {A : Type} (r : result A) : Prop :=
  match r with
  | Blocked | OutOfFuel => False
  | _ => True
  end.

(** An arena of 16 bytes, too small for a header. *)
Definition tiny_store : LoggingShmemHdr :=
  mkHdr (zeros 16) 8 0 16 true false.
Definition tiny_ctx : logged_data_ctx := mkCtx 8 0 false.

(** An arena of 128 bytes that holds the records of the two events
    from offset 60 on: the first at 60, the second from 96 round the end
    of the arena to 12. *)
Definition wrapped_store : LoggingShmemHdr :=
  mkHdr (rotl 68 (event_bytes sample_event ++ event_bytes other_event
                  ++ zeros 48))
        12 60 128 false false.

(** An arena of 64 bytes whose record at offset 0 has [tl] in its
    [totallen] field, and a session on it. *)
Definition corrupt_store (tl : Z) : LoggingShmemHdr :=
  mkHdr (int_bytes PG_ITEM_MAGIC ++ int_bytes tl ++ zeros 56)
        36 0 64 true false.
Definition corrupt_ctx : logged_data_ctx := mkCtx 36 0 false.

(** An arena of 64 bytes whose record at offset 0 has the magic [mg],
    the message length -28 and the detail length 28: the detail is
    looked for 28 bytes before the texts, where the block has the bytes
    of the header, the magic first. *)
Definition backward_store (mg : Z) : LoggingShmemHdr :=
  mkHdr (int_bytes mg ++ int_bytes 36 ++ int_bytes 2
         ++ [byte_of_Z 20; x00; x00; x00]
         ++ int_bytes (-28) ++ int_bytes 28 ++ int_bytes 0
         ++ cstr "abc" ++ cstr "hi!" ++ zeros 28)
        36 0 64 true false.

(** ** Writers during a session *)

(** The writers are in another file of the extension; they share with
    the reader the arena, [endpos] and the flag [wraparound], and do not
    wait for the lock of the reader.  A step of the writers is any
    change to these three between two calls of a session: where they
    have left [endpos], what the arena holds and what the flag says.
    The reader holds the lock and is the only one to move [readpos]; the
    size of the arena is fixed. *)
Record writer_step : Type := mkStep {
  step_endpos : Z;
  step_data : list byte;
  step_wraparound : bool
}.

(** One entry for each call after the first, [None] when the writers
    have done nothing since the call before; past the end of the list
    the writers are quiet. *)
Definition writers : Type := list (option writer_step).

Definition writer_move (w : option writer_step) (h : LoggingShmemHdr)
  : LoggingShmemHdr :=
  match w with
  | Some w =>
      mkHdr (step_data w) (step_endpos w) (readpos h) (buffer_size h)
            (hdr_lock h) (step_wraparound w)
  | None => h
  end.

(** A session as [drain_calls] runs it, with writers that also write
    into the arena. *)
Fixpoint session_calls (calls fuel : nat) (ws : writers)
  (user_fctx : option logged_data_ctx) (h : LoggingShmemHdr)
  : result (list log_row * LoggingShmemHdr) :=
  match calls with
  | O => OutOfFuel
  | S calls' =>
      let* (r, h1) := get_logged_data fuel user_fctx h in
      match r with
      | SRF_RETURN_DONE => Ok ([], h1)
      | SRF_RETURN_NEXT c row =>
          let* (rows, h2) :=
            session_calls calls' fuel (tl ws) (Some c)
              (writer_move (hd None ws) h1) in
          Ok (row :: rows, h2)
      end
  end.


(** The writers of [drain_calls], which move [endpos] and nothing
    else, as writers of [session_calls]; [d] and [w] are the arena and
    the flag they leave alone. *)
Definition endpos_step (d : list byte) (w : bool) (mv : option Z)
  : option writer_step :=
  match mv with
  | Some v => Some (mkStep v d w)
  | None => None
  end.






(** ** Tactics *)

Ltac case_binds :=
  repeat match goal with
         | |- context [bind ?m _] =>
             match m with
             | context [bind _ _] => fail 1
             | _ => destruct m as [?| | | |]; cbn [bind]; try reflexivity
             end
         | |- context [match ?p with (_, _) => _ end] => destruct p
         end.

(** * Properties *)

(** ** Integer conversions inside their ranges *)

Lemma to_uint32_small (x : Z) : is_uint32 x -> to_uint32 x = x.
Proof. unfold is_uint32, to_uint32. intros H. apply Z.mod_small. exact H. Qed.

Lemma to_int32_small (x : Z) : is_int32 x -> to_int32 x = x.
Proof.
  unfold is_int32, to_int32. intros H.
  rewrite Z.mod_small; lia.
Qed.

Lemma to_size_t_small (x : Z) : 0 <= x < 2 ^ 64 -> to_size_t x = x.
Proof. unfold to_size_t. intros H. apply Z.mod_small. exact H. Qed.

Lemma to_uint32_range (x : Z) : is_uint32 (to_uint32 x).
Proof. unfold is_uint32, to_uint32. apply Z.mod_pos_bound. lia. Qed.

Lemma to_int32_range (x : Z) : is_int32 (to_int32 x).
Proof.
  unfold is_int32, to_int32.
  pose proof (Z.mod_pos_bound (x + 2 ^ 31) (2 ^ 32)). lia.
Qed.

(** ** Example stores *)

Example straddling_call :
  get_logged_data 2 (Some straddling_ctx) straddling_store
  = Ok (SRF_RETURN_NEXT (mkCtx 4 32 false) (sample_row 32),
        set_readpos 4 straddling_store).
Proof. vm_compute. reflexivity. Qed.

Example one_item_session :
  drain 2 2 [] (one_item_store PG_ITEM_MAGIC)
  = Ok ([sample_row 0], set_readpos 36 (one_item_store PG_ITEM_MAGIC)).
Proof. vm_compute. reflexivity. Qed.

(** ** The reset *)

Lemma set_endpos_producer_move (mv : option Z) (h : LoggingShmemHdr) :
  set_endpos 0 (producer_move mv h) = set_endpos 0 h.
Proof. destruct mv; reflexivity. Qed.

(** The loop ends once the writers are quiet, whatever they did before,
    and it ends with the cursor at 0. *)
Lemma reset_endpos_loop_ends (ps : producers) :
  forall (fuel : nat) (h : LoggingShmemHdr) (curpos : Z),
    (length ps + 2 <= fuel)%nat ->
    reset_endpos_loop fuel ps h curpos = Ok (set_endpos 0 h).
Proof.
  induction ps as [|mv ps IH]; intros fuel h curpos Hfuel.
  - destruct fuel as [|[|fuel]]; simpl in Hfuel; try lia.
    simpl. unfold pg_atomic_compare_exchange_u32.
    destruct (endpos h =? curpos) eqn:E; [reflexivity|].
    rewrite Z.eqb_refl. reflexivity.
  - destruct fuel as [|fuel]; simpl in Hfuel; try lia.
    simpl. unfold pg_atomic_compare_exchange_u32.
    destruct (endpos (producer_move mv h) =? curpos) eqn:E.
    + now rewrite set_endpos_producer_move.
    + rewrite IH by lia. now rewrite set_endpos_producer_move.
Qed.

(** A single attempt is not enough when a writer has moved the cursor
    since it was read: the exchange fails and the loop goes round. *)
Example reset_retries :
  reset_counters_in_shmem 1 [Some 72] (mkHdr [] 36 0 128 false false)
  = OutOfFuel
  /\ reset_counters_in_shmem 2 [Some 72] (mkHdr [] 36 0 128 false false)
     = Ok (mkHdr [] 0 0 128 false false).
Proof. split; reflexivity. Qed.

Lemma reset_counters_result (fuel : nat) (ps : producers)
  (h : LoggingShmemHdr) :
  hdr_lock h = false ->
  (length ps + 2 <= fuel)%nat ->
  reset_counters_in_shmem fuel ps h
  = Ok (mkHdr (data h) 0 0 (buffer_size h) false (wraparound h)).
Proof.
  intros Hlock Hfuel. unfold reset_counters_in_shmem, LWLockAcquire.
  rewrite Hlock. simpl. rewrite reset_endpos_loop_ends by exact Hfuel.
  reflexivity.
Qed.

(** C4, as the code has it.  With the lock free and the writers moving
    [endpos] any finite number of times during the call,
    [reset_counters_in_shmem] returns with [endpos] and [readpos] at 0
    and the lock released; it waits when the lock is held; and it leaves
    the [wraparound] flag of the shared header, the arena and the buffer
    size as they were. *)
Theorem reset_counters_in_shmem_spec (fuel : nat) (ps : producers)
  (h : LoggingShmemHdr) :
  (length ps + 2 <= fuel)%nat ->
  if hdr_lock h
  then reset_counters_in_shmem fuel ps h = Blocked
  else exists h',
      reset_counters_in_shmem fuel ps h = Ok h'
      /\ endpos h' = 0 /\ readpos h' = 0 /\ hdr_lock h' = false
      /\ wraparound h' = wraparound h
      /\ data h' = data h /\ buffer_size h' = buffer_size h.
Proof.
  intros Hfuel. destruct (hdr_lock h) eqn:Hlock.
  - unfold reset_counters_in_shmem, LWLockAcquire. now rewrite Hlock.
  - eexists. split; [apply reset_counters_result; assumption|].
    simpl. repeat split.
Qed.

Lemma reset_counters_in_shmem_spec_witness :
  (length [Some 72; None; Some 108] + 2 <= 5)%nat
  /\ exists h',
      reset_counters_in_shmem 5 [Some 72; None; Some 108]
        (mkHdr [] 36 0 128 false true) = Ok h'
      /\ endpos h' = 0 /\ readpos h' = 0 /\ hdr_lock h' = false
      /\ wraparound h' = true
      /\ data h' = [] /\ buffer_size h' = 128.
Proof.
  split; [simpl; lia|].
  apply (reset_counters_in_shmem_spec 5 [Some 72; None; Some 108]
           (mkHdr [] 36 0 128 false true)).
  simpl; lia.
Defined.

(** C4 as the specification states it fails: the reset does not clear
    the [wraparound] flag of the shared header. *)
Lemma reset_keeps_wraparound :
  reset_counters_in_shmem 2 [] (mkHdr [] 36 64 128 false true)
  = Ok (mkHdr [] 0 0 128 false true)
  /\ ~ (forall h',
         reset_counters_in_shmem 2 [] (mkHdr [] 36 64 128 false true) = Ok h'
         -> wraparound h' = false).
Proof.
  split; [reflexivity|].
  intros H. specialize (H _ eq_refl). discriminate H.
Qed.

(** ** Flush, then drain *)

(** C5.  With the lock free, [flush_logged_data] leaves a store on
    which a second flush changes nothing, and on which a session that
    starts at once returns no row (and gives the store back unchanged). *)
Theorem flush_idempotent (fuel fuel' : nat) (ps ps' : producers)
  (h : LoggingShmemHdr) :
  hdr_lock h = false ->
  (length ps + 2 <= fuel)%nat ->
  (length ps' + 2 <= fuel')%nat ->
  exists h1,
    flush_logged_data fuel ps h = Ok h1
    /\ flush_logged_data fuel' ps' h1 = Ok h1
    /\ forall (calls loops : nat) (qs : producers),
        drain (S calls) (S loops) qs h1 = Ok ([], h1).
Proof.
  intros Hlock Hfuel Hfuel'. unfold flush_logged_data.
  eexists. split; [apply reset_counters_result; assumption|]. split.
  - rewrite reset_counters_result by (simpl; auto). reflexivity.
  - intros calls loops qs. reflexivity.
Qed.

Lemma flush_idempotent_witness :
  hdr_lock (mkHdr (zeros 64) 36 0 64 false true) = false
  /\ (length [Some 40] + 2 <= 3)%nat
  /\ (length (@nil (option Z)) + 2 <= 2)%nat
  /\ exists h1,
      flush_logged_data 3 [Some 40] (mkHdr (zeros 64) 36 0 64 false true)
      = Ok h1
      /\ flush_logged_data 2 [] h1 = Ok h1
      /\ forall (calls loops : nat) (qs : producers),
          drain (S calls) (S loops) qs h1 = Ok ([], h1).
Proof.
  split; [reflexivity|]. split; [simpl; lia|]. split; [simpl; lia|].
  apply (flush_idempotent 3 2 [Some 40] []
           (mkHdr (zeros 64) 36 0 64 false true));
    [reflexivity | simpl; lia | simpl; lia].
Defined.

(** ** The loop of one call *)

Lemma header_past_end_spec (h : LoggingShmemHdr) :
  is_uint32 (readpos h) ->
  0 <= buffer_size h < 2 ^ 31 ->
  header_past_end h = (readpos h + ITEM_HDR_LEN >? buffer_size h).
Proof.
  unfold is_uint32, header_past_end, ITEM_HDR_LEN. intros Hr Hb.
  rewrite !to_size_t_small by lia. reflexivity.
Qed.

Lemma loop_done (fuel : nat) (h : LoggingShmemHdr) (c : logged_data_ctx) :
  loop_cond h c = false ->
  get_logged_data_loop (S fuel) h c = Ok (SRF_RETURN_DONE, LWLockRelease h).
Proof. intros H. simpl. now rewrite H. Qed.

Lemma loop_extract (fuel : nat) (h : LoggingShmemHdr) (c : logged_data_ctx) :
  loop_cond h c = true ->
  header_past_end h = false ->
  get_logged_data_loop (S fuel) h c = next_item h c.
Proof. intros H1 H2. simpl. now rewrite H1, H2. Qed.

Lemma loop_wrap (fuel : nat) (h : LoggingShmemHdr) (c : logged_data_ctx) :
  loop_cond h c = true ->
  header_past_end h = true ->
  get_logged_data_loop (S fuel) h c
  = get_logged_data_loop fuel (set_readpos 0 h) (set_ctx_wraparound false c).
Proof. intros H1 H2. simpl. now rewrite H1, H2. Qed.

Lemma at_or_rewound_step (h : LoggingShmemHdr) (c : logged_data_ctx)
  (h0 : LoggingShmemHdr) (c0 : logged_data_ctx) :
  loop_cond h c = true -> header_past_end h = true ->
  at_or_rewound (set_readpos 0 h) (set_ctx_wraparound false c) h0 c0 ->
  at_or_rewound h c h0 c0.
Proof.
  intros Hc Hp [[-> ->]|(_ & _ & -> & ->)]; right; now repeat split.
Qed.

(** A call that returns a row has read it by [next_item], in a state in
    which the loop condition holds. *)
Lemma loop_next_inv (fuel : nat) :
  forall (h : LoggingShmemHdr) (c c' : logged_data_ctx) (row : log_row)
         (h' : LoggingShmemHdr),
    get_logged_data_loop fuel h c = Ok (SRF_RETURN_NEXT c' row, h') ->
    exists h0 c0,
      at_or_rewound h c h0 c0
      /\ loop_cond h0 c0 = true
      /\ header_past_end h0 = false
      /\ next_item h0 c0 = Ok (SRF_RETURN_NEXT c' row, h').
Proof.
  induction fuel as [|fuel IH]; intros h c c' row h' H; [discriminate H|].
  simpl in H.
  destruct (loop_cond h c) eqn:Hc; [|discriminate H].
  destruct (header_past_end h) eqn:Hp.
  - destruct (IH _ _ _ _ _ H) as (h0 & c0 & Hr & H0).
    exists h0, c0. split; [now apply at_or_rewound_step|exact H0].
  - exists h, c. split; [now left|]. now repeat split.
Qed.

(** A call that returns "done" found the loop condition false, there
    or after the jump, and released the lock. *)
Lemma loop_done_inv (fuel : nat) :
  forall (h : LoggingShmemHdr) (c : logged_data_ctx) (h' : LoggingShmemHdr),
    get_logged_data_loop fuel h c = Ok (SRF_RETURN_DONE, h') ->
    exists h0 c0,
      at_or_rewound h c h0 c0
      /\ loop_cond h0 c0 = false
      /\ h' = LWLockRelease h0.
Proof.
  induction fuel as [|fuel IH]; intros h c h' H; [discriminate H|].
  simpl in H.
  destruct (loop_cond h c) eqn:Hc.
  - destruct (header_past_end h) eqn:Hp.
    + destruct (IH _ _ _ H) as (h0 & c0 & Hr & H0).
      exists h0, c0. split; [now apply at_or_rewound_step|exact H0].
    + unfold next_item in H.
      destruct (alloc_item h) as [it| | | |]; try discriminate H.
      simpl in H.
      destruct (copy_texts h c it) as [[[i1 h1] c1]| | | |];
        try discriminate H.
      simpl in H.
      destruct (form_tuple i1 (to_int32 (readpos h))); discriminate H.
  - injection H as <-. exists h, c. split; [now left|]. now split.
Qed.

(** C3.  When the loop condition holds and [readpos + ITEM_HDR_LEN]
    is above [buffer_size], the loop sets [readpos] to 0, clears the
    flag of the session and evaluates its condition again: the call then
    is done when [until] is 0, and reads the record at offset 0
    otherwise; nothing is returned for the bytes that were skipped. *)
Theorem header_past_end_rewinds (fuel : nat) (h : LoggingShmemHdr)
  (c : logged_data_ctx) :
  is_uint32 (readpos h) ->
  0 <= buffer_size h < 2 ^ 31 ->
  loop_cond h c = true ->
  readpos h + ITEM_HDR_LEN > buffer_size h ->
  let h0 := set_readpos 0 h in
  let c0 := set_ctx_wraparound false c in
  get_logged_data_loop (S fuel) h c = get_logged_data_loop fuel h0 c0
  /\ readpos h0 = 0 /\ ctx_wraparound c0 = false
  /\ (until c <= 0 ->
      get_logged_data_loop (S (S fuel)) h c
      = Ok (SRF_RETURN_DONE, LWLockRelease h0))
  /\ (0 < until c -> ITEM_HDR_LEN <= buffer_size h ->
      get_logged_data_loop (S (S fuel)) h c = next_item h0 c0).
Proof.
  intros Hr Hb Hc Hp h0 c0.
  assert (Hpe : header_past_end h = true).
  { rewrite header_past_end_spec by assumption. now apply Z.gtb_lt, Z.gt_lt. }
  split; [now apply loop_wrap|]. split; [reflexivity|].
  split; [reflexivity|]. split.
  - intros Hu. rewrite loop_wrap by assumption. apply loop_done.
    unfold loop_cond, c0, h0. simpl.
    replace (0 <? until c) with false by (symmetry; apply Z.ltb_ge; lia).
    reflexivity.
  - intros Hu Hfit. rewrite loop_wrap by assumption. apply loop_extract.
    + unfold loop_cond, c0, h0. simpl.
      replace (0 <? until c) with true by (symmetry; apply Z.ltb_lt; lia).
      reflexivity.
    + unfold h0. rewrite header_past_end_spec; simpl; try assumption.
      * rewrite Z.gtb_ltb. apply Z.ltb_ge. simpl. exact Hfit.
      * unfold is_uint32. lia.
Qed.

Lemma header_past_end_rewinds_witness :
  is_uint32 (readpos rewinding_store)
  /\ 0 <= buffer_size rewinding_store < 2 ^ 31
  /\ loop_cond rewinding_store rewinding_ctx = true
  /\ readpos rewinding_store + ITEM_HDR_LEN > buffer_size rewinding_store
  /\ get_logged_data_loop 2 rewinding_store rewinding_ctx
     = Ok (SRF_RETURN_NEXT (mkCtx 36 40 false) (sample_row 0),
           set_readpos 36 rewinding_store).
Proof.
  assert (H1 : is_uint32 (readpos rewinding_store)) by now vm_compute.
  assert (H2 : 0 <= buffer_size rewinding_store < 2 ^ 31) by now vm_compute.
  assert (H3 : loop_cond rewinding_store rewinding_ctx = true)
    by reflexivity.
  assert (H4 : readpos rewinding_store + ITEM_HDR_LEN
               > buffer_size rewinding_store) by reflexivity.
  destruct (header_past_end_rewinds 0 rewinding_store rewinding_ctx
              H1 H2 H3 H4) as (_ & _ & _ & _ & Hnext).
  repeat (split; [assumption|]).
  rewrite Hnext; [vm_compute; reflexivity|reflexivity|now vm_compute].
Defined.

(** ** Loads and copies *)

Lemma len_nonneg {A : Type} (l : list A) : 0 <= len l.
Proof. unfold len. lia. Qed.

Lemma len_app {A : Type} (l1 l2 : list A) : len (l1 ++ l2) = len l1 + len l2.
Proof. unfold len. rewrite length_app. lia. Qed.

Lemma load_in_bounds (mem : list byte) (off n : Z) :
  0 <= off -> 0 <= n -> off + n <= len mem ->
  load mem off n = Ok (firstn (Z.to_nat n) (skipn (Z.to_nat off) mem)).
Proof.
  intros H1 H2 H3. unfold load.
  replace (0 <=? off) with true by (symmetry; now apply Z.leb_le).
  replace (0 <=? n) with true by (symmetry; now apply Z.leb_le).
  replace (off + n <=? len mem) with true by (symmetry; now apply Z.leb_le).
  reflexivity.
Qed.

Lemma load_inv (mem : list byte) (off n : Z) (bs : list byte) :
  load mem off n = Ok bs ->
  0 <= off /\ 0 <= n /\ off + n <= len mem /\ len bs = n
  /\ bs = firstn (Z.to_nat n) (skipn (Z.to_nat off) mem).
Proof.
  unfold load. intros H.
  destruct (0 <=? off) eqn:E1; [|discriminate H].
  destruct (0 <=? n) eqn:E2; [|discriminate H].
  destruct (off + n <=? len mem) eqn:E3; [|discriminate H].
  apply Z.leb_le in E1, E2, E3. simpl in H. injection H as <-.
  repeat split; try assumption.
  unfold len in *. rewrite length_firstn, length_skipn. lia.
Qed.

Lemma memcpy_whole (dst src : list byte) :
  len src = len dst -> memcpy dst 0 src = Ok src.
Proof.
  intros H. unfold memcpy. simpl. rewrite H, Z.leb_refl. simpl.
  rewrite skipn_all2 by (unfold len; lia). now rewrite app_nil_r.
Qed.

Lemma memcpy_front (dst src : list byte) :
  len src <= len dst ->
  memcpy dst 0 src = Ok (src ++ skipn (length src) dst).
Proof.
  intros H. unfold memcpy. simpl.
  replace (len src <=? len dst) with true by (symmetry; now apply Z.leb_le).
  simpl. unfold len. now rewrite Nat2Z.id.
Qed.

Lemma memcpy_back (front rest src : list byte) :
  len src = len rest ->
  memcpy (front ++ rest) (len front) src = Ok (front ++ src).
Proof.
  intros H. unfold memcpy.
  replace (0 <=? len front) with true
    by (symmetry; apply Z.leb_le, len_nonneg).
  rewrite len_app, H, Z.leb_refl. simpl.
  unfold len at 1. rewrite Nat2Z.id, firstn_app, firstn_all, Nat.sub_diag.
  simpl. rewrite app_nil_r.
  rewrite skipn_all2; [now rewrite app_nil_r|].
  rewrite length_app. unfold len. lia.
Qed.

(** ** The fresh block *)

Lemma palloc0_inv (size : Z) (blk : list byte) :
  palloc0 size = Ok blk ->
  size <= MaxAllocSize /\ blk = repeat x00 (Z.to_nat size).
Proof.
  unfold palloc0. destruct (size <=? MaxAllocSize) eqn:E; [|discriminate].
  intros H. injection H as <-. apply Z.leb_le in E. now split.
Qed.

Lemma copy_header_fields (mem : list byte) (pos : Z) (blk : list byte)
  (it : CollectedItem) :
  copy_header mem pos blk = Ok it ->
  load_int mem (pos + off_totallen) = Ok (totallen it) /\ item_data it = blk.
Proof.
  unfold copy_header. intros H.
  destruct (load mem pos ITEM_HDR_LEN); try discriminate H.
  destruct (load_int mem (pos + off_magic)); try discriminate H.
  destruct (load_int mem (pos + off_totallen)); try discriminate H.
  destruct (load_int mem (pos + off_saved_errno)); try discriminate H.
  destruct (load_char mem (pos + off_elevel)); try discriminate H.
  destruct (load_int mem (pos + off_message_len)); try discriminate H.
  destruct (load_int mem (pos + off_detail_len)); try discriminate H.
  destruct (load_int mem (pos + off_hint_len)); try discriminate H.
  simpl in H. injection H as <-. now split.
Qed.

Lemma load_int_range (mem : list byte) (off v : Z) :
  load_int mem off = Ok v -> is_int32 v.
Proof.
  unfold load_int. destruct (load mem off 4); try discriminate.
  simpl. intros H. injection H as <-. apply to_int32_range.
Qed.

(** A block that was allocated and filled with the header: [totallen]
    is the one stored in the arena, it is at least the length of the
    header and at most [MaxAllocSize], and the data area has the
    remaining [totallen - ITEM_HDR_LEN] bytes. *)
Lemma alloc_item_inv (h : LoggingShmemHdr) (it : CollectedItem) :
  alloc_item h = Ok it ->
  load_int (data h) (readpos h + off_totallen) = Ok (totallen it)
  /\ ITEM_HDR_LEN <= totallen it <= MaxAllocSize
  /\ len (item_data it) = totallen it - ITEM_HDR_LEN.
Proof.
  unfold alloc_item. intros H.
  destruct (load_int (data h) (readpos h + off_totallen)) as [tl| | | |] eqn:Etl;
    try discriminate H.
  cbn [bind] in H. pose proof (load_int_range _ _ _ Etl) as Hrange.
  destruct (palloc0 (to_size_t tl)) as [blk| | | |] eqn:Eblk;
    try discriminate H.
  cbn [bind] in H. apply palloc0_inv in Eblk. destruct Eblk as [Hmax ->].
  destruct (len (repeat x00 (Z.to_nat (to_size_t tl))) <? ITEM_HDR_LEN) eqn:Ehdr;
    [discriminate H|].
  apply copy_header_fields in H. destruct H as [Hload Hdata].
  rewrite Etl in Hload. injection Hload as ->.
  apply Z.ltb_ge in Ehdr. unfold len in Ehdr. rewrite repeat_length in Ehdr.
  unfold is_int32 in Hrange. unfold MaxAllocSize, ITEM_HDR_LEN in *.
  assert (Hpos : 0 <= totallen it).
  { destruct (Z_lt_le_dec (totallen it) 0) as [Hneg|]; [|assumption].
    exfalso. unfold to_size_t in Hmax.
    replace (totallen it) with (totallen it + 2 ^ 64 + (-1) * 2 ^ 64) in Hmax
      by ring.
    rewrite Z.mod_add, Z.mod_small in Hmax; lia. }
  rewrite to_size_t_small in Ehdr, Hmax by lia.
  split; [reflexivity|]. split; [lia|].
  rewrite Hdata. unfold len. rewrite length_skipn, repeat_length.
  rewrite to_size_t_small by lia. lia.
Qed.

(** ** The two branches *)

Lemma two_parts_spec (h : LoggingShmemHdr) (tl : Z) :
  0 <= readpos h -> 0 <= tl -> readpos h + tl < 2 ^ 32 ->
  0 <= buffer_size h < 2 ^ 31 ->
  two_parts h tl = (readpos h + tl >=? buffer_size h).
Proof.
  intros H1 H2 H3 H4. unfold two_parts.
  rewrite !to_uint32_small by (unfold is_uint32; lia). reflexivity.
Qed.

Lemma taillen_of_spec (h : LoggingShmemHdr) :
  0 <= readpos h -> readpos h + ITEM_HDR_LEN <= buffer_size h ->
  buffer_size h < 2 ^ 31 ->
  taillen_of h = buffer_size h - readpos h - ITEM_HDR_LEN.
Proof.
  unfold taillen_of, ITEM_HDR_LEN. intros H1 H2 H3.
  rewrite to_uint32_small by (unfold is_uint32; lia).
  rewrite to_size_t_small by lia.
  apply to_int32_small. unfold is_int32. lia.
Qed.

(** C1, as the code has it.  For a record whose header lies inside
    the arena and whose [totallen] is at most [buffer_size], the record
    is read in two parts if and only if [readpos + totallen] reaches or
    exceeds [buffer_size].  In that case the data area receives the
    [buffer_size - readpos - ITEM_HDR_LEN] bytes up to the end of the
    arena followed by the remaining bytes from its start, the flag of
    the session is cleared and [readpos] becomes
    [(readpos + totallen) mod buffer_size].  Otherwise the data area
    receives the [totallen - ITEM_HDR_LEN] bytes after the header and
    [readpos] becomes [readpos + totallen], which is below
    [buffer_size]. *)
Theorem copy_texts_spec (h : LoggingShmemHdr) (c : logged_data_ctx)
  (item : CollectedItem) :
  len (data h) = buffer_size h ->
  0 <= readpos h ->
  readpos h + ITEM_HDR_LEN <= buffer_size h ->
  buffer_size h < 2 ^ 31 ->
  alloc_item h = Ok item ->
  totallen item <= buffer_size h ->
  two_parts h (totallen item) = (readpos h + totallen item >=? buffer_size h)
  /\ if readpos h + totallen item >=? buffer_size h then
       let taillen := buffer_size h - readpos h - ITEM_HDR_LEN in
       exists tail head,
         load (data h) (readpos h + ITEM_HDR_LEN) taillen = Ok tail
         /\ load (data h) 0 (totallen item - ITEM_HDR_LEN - taillen) = Ok head
         /\ copy_texts h c item
            = Ok (set_item_data (tail ++ head) item,
                  set_readpos ((readpos h + totallen item) mod buffer_size h) h,
                  set_ctx_wraparound false c)
     else
       exists texts,
         load (data h) (readpos h + ITEM_HDR_LEN)
              (totallen item - ITEM_HDR_LEN) = Ok texts
         /\ copy_texts h c item
            = Ok (set_item_data texts item,
                  set_readpos (readpos h + totallen item) h, c)
         /\ readpos h + totallen item < buffer_size h.
Proof.
  intros Hlen Hrp Hhdr Hbs Halloc Htl.
  apply alloc_item_inv in Halloc. destruct Halloc as (_ & Hrange & Hdata).
  unfold MaxAllocSize, ITEM_HDR_LEN in *.
  assert (Htwo : two_parts h (totallen item)
                 = (readpos h + totallen item >=? buffer_size h))
    by (apply two_parts_spec; lia).
  split; [exact Htwo|].
  unfold copy_texts. rewrite Htwo.
  destruct (readpos h + totallen item >=? buffer_size h) eqn:Ecmp.
  - apply Z.geb_le in Ecmp. cbv zeta.
    rewrite taillen_of_spec by (unfold ITEM_HDR_LEN; lia).
    unfold ITEM_HDR_LEN.
    set (taillen := buffer_size h - readpos h - 28).
    rewrite (to_size_t_small taillen) by (unfold taillen; lia).
    destruct (load (data h) (readpos h + 28) taillen) as [tail| | | |] eqn:Etail;
      try (rewrite load_in_bounds in Etail by (unfold taillen; lia);
           discriminate Etail).
    destruct (load (data h) 0 (totallen item - 28 - taillen))
      as [head| | | |] eqn:Ehead;
      try (rewrite load_in_bounds in Ehead by (unfold taillen; lia);
           discriminate Ehead).
    exists tail, head. split; [reflexivity|]. split; [reflexivity|].
    apply load_inv in Etail as Htail. destruct Htail as (_ & _ & _ & Hltail & _).
    apply load_inv in Ehead as Hhead. destruct Hhead as (_ & _ & _ & Hlhead & _).
    cbn [bind]. rewrite memcpy_front by lia. cbn [bind].
    cbn [readpos buffer_size data set_readpos].
    rewrite (to_uint32_small (readpos h + totallen item))
      by (unfold is_uint32; lia).
    rewrite (to_uint32_small (readpos h + totallen item - buffer_size h))
      by (unfold is_uint32; lia).
    replace (readpos h + totallen item - buffer_size h)
      with (totallen item - 28 - taillen) by (unfold taillen; lia).
    rewrite Ehead. cbn [bind].
    replace (memcpy (tail ++ skipn (length tail) (item_data item)) taillen head)
      with (memcpy (tail ++ skipn (length tail) (item_data item)) (len tail) head)
      by now rewrite Hltail.
    rewrite memcpy_back.
    + cbn [bind]. do 3 f_equal. unfold set_readpos. cbn. f_equal.
      apply (Z.mod_unique _ _ 1); unfold taillen; lia.
    + rewrite Hlhead. unfold len in *. rewrite length_skipn. lia.
  - assert (Hlt : readpos h + totallen item < buffer_size h).
    { destruct (Z_lt_le_dec (readpos h + totallen item) (buffer_size h));
        [assumption|].
      apply Z.geb_le in l. rewrite l in Ecmp. discriminate Ecmp. }
    cbv zeta. unfold ITEM_HDR_LEN.
    rewrite (to_size_t_small (totallen item - 28)) by lia.
    destruct (load (data h) (readpos h + 28) (totallen item - 28))
      as [texts| | | |] eqn:Etexts;
      try (rewrite load_in_bounds in Etexts by lia; discriminate Etexts).
    exists texts. split; [reflexivity|].
    apply load_inv in Etexts as Htexts.
    destruct Htexts as (_ & _ & _ & Hltexts & _).
    cbn [bind]. rewrite memcpy_whole by lia. cbn [bind].
    rewrite to_uint32_small by (unfold is_uint32; lia).
    split; [reflexivity|exact Hlt].
Qed.

Lemma copy_texts_spec_witness :
  exists item,
    alloc_item straddling_store = Ok item
    /\ two_parts straddling_store (totallen item) = true
    /\ exists tail head,
        load (data straddling_store) (32 + ITEM_HDR_LEN) 4 = Ok tail
        /\ load (data straddling_store) 0 4 = Ok head
        /\ copy_texts straddling_store straddling_ctx item
           = Ok (set_item_data (tail ++ head) item,
                 set_readpos 4 straddling_store,
                 set_ctx_wraparound false straddling_ctx).
Proof.
  destruct (alloc_item straddling_store) as [item| | | |] eqn:Halloc;
    try (vm_compute in Halloc; discriminate Halloc).
  assert (Htl : totallen item = 36).
  { vm_compute in Halloc. injection Halloc as <-. reflexivity. }
  exists item. split; [reflexivity|].
  pose proof (copy_texts_spec straddling_store straddling_ctx item) as H.
  rewrite Htl in H. rewrite Htl.
  destruct H as [Htwo Hbranch];
    [reflexivity | vm_compute; discriminate | vm_compute; discriminate
    | reflexivity | exact Halloc | vm_compute; discriminate |].
  split; [exact Htwo|]. exact Hbranch.
Defined.

(** C1 as the specification states it fails when a record ends
    exactly at the end of the arena: [readpos + totallen] does not exceed
    [buffer_size], and still the two-part branch is taken, which clears
    the flag of the session and leaves [readpos] at 0, not at
    [buffer_size]. *)
Lemma exact_end_takes_two_parts :
  exists item item',
    alloc_item exact_end_store = Ok item
    /\ readpos exact_end_store + totallen item = buffer_size exact_end_store
    /\ two_parts exact_end_store (totallen item) = true
    /\ copy_texts exact_end_store exact_end_ctx item
       = Ok (item', set_readpos 0 exact_end_store,
             set_ctx_wraparound false exact_end_ctx)
    /\ ctx_wraparound exact_end_ctx = true
    /\ get_logged_data 1 (Some exact_end_ctx) exact_end_store
       = Ok (SRF_RETURN_NEXT (mkCtx 0 28 false) (sample_row 28),
             set_readpos 0 exact_end_store).
Proof.
  eexists. eexists.
  split; [vm_compute; reflexivity|].
  split; [reflexivity|]. split; [reflexivity|].
  split; [vm_compute; reflexivity|].
  split; [reflexivity|]. vm_compute. reflexivity.
Qed.

(** ** A call and [endpos] *)



Lemma next_item_inv (h : LoggingShmemHdr) (c c' : logged_data_ctx)
  (row : log_row) (h' : LoggingShmemHdr) :
  next_item h c = Ok (SRF_RETURN_NEXT c' row, h') ->
  until c' = until c
  /\ row_position row = to_int32 (readpos h)
  /\ data h' = data h /\ buffer_size h' = buffer_size h
  /\ endpos h' = endpos h /\ hdr_lock h' = hdr_lock h
  /\ wraparound h' = wraparound h
  /\ is_uint32 (readpos h').
Proof.
  unfold next_item. intros H.
  destruct (alloc_item h) as [item| | | |]; try discriminate H.
  cbn [bind] in H.
  destruct (copy_texts h c item) as [[[item1 h1] c1]| | | |] eqn:Ecopy;
    try discriminate H.
  cbn [bind] in H.
  destruct (form_tuple item1 (to_int32 (readpos h))) as [row1| | | |] eqn:Erow;
    try discriminate H.
  cbn [bind] in H. injection H as <- <- <-.
  assert (Hpos : row_position row1 = to_int32 (readpos h)).
  { unfold form_tuple in Erow. cbv zeta in Erow.
    destruct (cstring_at (item_block item1) ITEM_HDR_LEN);
      try discriminate Erow.
    cbn [bind] in Erow.
    destruct (detail_len item1 =? 0);
      [|destruct (cstring_at (item_block item1)
                    (ITEM_HDR_LEN + message_len item1));
        try discriminate Erow];
      cbn [bind] in Erow;
      (destruct (hint_len item1 =? 0);
       [|match type of Erow with
         | context [cstring_at ?d ?o] => destruct (cstring_at d o)
         end; try discriminate Erow]);
      cbn [bind] in Erow; injection Erow as <-; reflexivity. }
  unfold copy_texts in Ecopy.
  destruct (two_parts h (totallen item)).
  - destruct (load (data h) (readpos h + ITEM_HDR_LEN) (to_size_t (taillen_of h)));
      try discriminate Ecopy.
    cbn [bind] in Ecopy.
    destruct (memcpy (item_data item) 0 a); try discriminate Ecopy.
    cbn [bind data readpos buffer_size set_readpos] in Ecopy.
    match type of Ecopy with
    | context [load ?m ?o ?n] => destruct (load m o n); try discriminate Ecopy
    end.
    cbn [bind] in Ecopy.
    destruct (memcpy a0 (taillen_of h) a1); try discriminate Ecopy.
    cbn [bind] in Ecopy. injection Ecopy as <- <- <-.
    cbn. repeat split; try assumption; apply to_uint32_range.
  - match type of Ecopy with
    | context [load ?m ?o ?n] => destruct (load m o n); try discriminate Ecopy
    end.
    cbn [bind] in Ecopy.
    destruct (memcpy (item_data item) 0 a); try discriminate Ecopy.
    cbn [bind] in Ecopy. injection Ecopy as <- <- <-.
    cbn. repeat split; try assumption; apply to_uint32_range.
Qed.

(** What a round of the loop leaves alone. *)
Lemma loop_frame (fuel : nat) :
  forall (h : LoggingShmemHdr) (c : logged_data_ctx) (r : srf_return)
         (h' : LoggingShmemHdr),
    get_logged_data_loop fuel h c = Ok (r, h') ->
    data h' = data h /\ endpos h' = endpos h
    /\ buffer_size h' = buffer_size h /\ wraparound h' = wraparound h
    /\ hdr_lock h' = match r with
                     | SRF_RETURN_NEXT _ _ => hdr_lock h
                     | SRF_RETURN_DONE => false
                     end.
Proof.
  induction fuel as [|fuel IH]; intros h c r h' H; [discriminate H|].
  cbn [get_logged_data_loop] in H.
  destruct (loop_cond h c).
  - destruct (header_past_end h).
    + apply IH in H. exact H.
    + destruct r as [c' row|].
      * destruct (next_item_inv _ _ _ _ _ H)
          as (_ & _ & Hd & Hb & He & Hl & Hw & _).
        now repeat split.
      * unfold next_item in H.
        destruct (alloc_item h) as [it| | | |]; try discriminate H.
        cbn [bind] in H.
        destruct (copy_texts h c it) as [[[i1 h1] c1]| | | |];
          try discriminate H.
        cbn [bind] in H.
        destruct (form_tuple i1 (to_int32 (readpos h))); discriminate H.
  - injection H as <- <-. now repeat split.
Qed.

(** ** Positions *)

(** What a call that returns a row has done, whether it is the first
    call of its session or not. *)
Lemma call_next_inv (fuel : nat) (user_fctx : option logged_data_ctx)
  (h : LoggingShmemHdr) (c' : logged_data_ctx) (row : log_row)
  (h' : LoggingShmemHdr) :
  get_logged_data fuel user_fctx h = Ok (SRF_RETURN_NEXT c' row, h') ->
  exists h0 c0,
    readpos h0 = read_offset h
    /\ data h0 = data h /\ buffer_size h0 = buffer_size h
    /\ loop_cond h0 c0 = true
    /\ header_past_end h0 = false
    /\ next_item h0 c0 = Ok (SRF_RETURN_NEXT c' row, h').
Proof.
  unfold get_logged_data. intros H.
  assert (Hstart : exists h1 c,
             readpos h1 = readpos h /\ data h1 = data h
             /\ buffer_size h1 = buffer_size h
             /\ get_logged_data_loop fuel h1 c
                = Ok (SRF_RETURN_NEXT c' row, h')).
  { destruct user_fctx as [c|].
    - exists h, c. now repeat split.
    - unfold first_call_init, LWLockAcquire in H.
      destruct (hdr_lock h); [discriminate H|]. cbn [bind] in H.
      eexists. eexists.
      split; [|split; [|split; [|exact H]]]; reflexivity. }
  destruct Hstart as (h1 & c & Hr & Hd & Hb & Hloop).
  destruct (loop_next_inv _ _ _ _ _ _ Hloop)
    as (h0 & c0 & Hat & Hc & Hp & Hnext).
  exists h0, c0.
  assert (Hsame : header_past_end h1 = header_past_end h).
  { unfold header_past_end. now rewrite Hr, Hb. }
  unfold read_offset. rewrite <- Hsame.
  destruct Hat as [[-> ->]|(_ & Hp1 & -> & ->)].
  - rewrite Hp. now repeat split.
  - rewrite Hp1. now repeat split.
Qed.

Lemma producer_move_frame (mv : option Z) (h : LoggingShmemHdr) :
  readpos (producer_move mv h) = readpos h
  /\ data (producer_move mv h) = data h
  /\ buffer_size (producer_move mv h) = buffer_size h.
Proof. destruct mv; repeat split. Qed.

(** C9.  Every row of a session reports as its position the value
    [readpos] had in the call that returned it when the header of its
    record was read (after the jump to the start of the arena, if the
    call made one, and before the copy moved it), and that position lies
    in [0, buffer_size).  The session may be a whole one
    ([user_fctx = None], as in [drain]) or the rest of one. *)
Theorem row_position_spec (fuel : nat) (calls : nat) :
  forall (ps : producers) (user_fctx : option logged_data_ctx)
         (h h_end : LoggingShmemHdr) (rows : list log_row),
    is_uint32 (readpos h) ->
    0 <= buffer_size h < 2 ^ 31 ->
    drain_calls calls fuel ps user_fctx h = Ok (rows, h_end) ->
    Forall (fun row => read_at_position h row
                       /\ 0 <= row_position row < buffer_size h) rows.
Proof.
  induction calls as [|calls IH];
    intros ps user_fctx h h_end rows Hr Hb H; [discriminate H|].
  cbn [drain_calls] in H.
  destruct (get_logged_data fuel user_fctx h) as [[r h1]| | | |] eqn:Hcall;
    try discriminate H.
  cbn [bind] in H. destruct r as [c' row|].
  - destruct (drain_calls calls fuel (tl ps) (Some c')
                (producer_move (hd None ps) h1))
      as [[rows' h2]| | | |] eqn:Hrest; try discriminate H.
    cbn [bind] in H. injection H as <- <-.
    destruct (call_next_inv _ _ _ _ _ _ Hcall)
      as (h0 & c0 & Hr0 & Hd0 & Hb0 & _ & Hp & Hnext).
    destruct (next_item_inv _ _ _ _ _ Hnext)
      as (_ & Hpos & Hd1 & Hb1 & _ & _ & _ & Hr1).
    destruct (producer_move_frame (hd None ps) h1) as (Hrm & Hdm & Hbm).
    assert (Hr0' : is_uint32 (readpos h0)).
    { rewrite Hr0. unfold read_offset.
      destruct (header_past_end h); [unfold is_uint32; lia|assumption]. }
    rewrite header_past_end_spec in Hp by (rewrite ?Hb0; assumption).
    rewrite Z.gtb_ltb in Hp. apply Z.ltb_ge in Hp.
    unfold ITEM_HDR_LEN, is_uint32 in *.
    assert (Hpos' : row_position row = readpos h0).
    { rewrite Hpos. apply to_int32_small. unfold is_int32. lia. }
    constructor.
    + split; [|lia].
      exists fuel, user_fctx, h, c', h1.
      split; [reflexivity|]. split; [reflexivity|].
      split; [exact Hcall|congruence].
    + eapply Forall_impl;
        [|apply (IH _ _ _ _ _) with (3 := Hrest); rewrite ?Hrm, ?Hbm; lia].
      cbn beta.
      intros row' [(f' & u' & hk & ck & hk' & Ha & Hb' & Hc & Hd) Hrange].
      split; [|lia].
      exists f', u', hk, ck, hk'.
      split; [congruence|]. split; [congruence|]. now split.
  - injection H as <- <-. constructor.
Qed.

Lemma row_position_spec_witness :
  is_uint32 (readpos (one_item_store PG_ITEM_MAGIC))
  /\ 0 <= buffer_size (one_item_store PG_ITEM_MAGIC) < 2 ^ 31
  /\ drain 2 2 [] (one_item_store PG_ITEM_MAGIC)
     = Ok ([sample_row 0], set_readpos 36 (one_item_store PG_ITEM_MAGIC))
  /\ Forall (fun row => read_at_position (one_item_store PG_ITEM_MAGIC) row
                        /\ 0 <= row_position row < 64) [sample_row 0].
Proof.
  assert (Hr : is_uint32 (readpos (one_item_store PG_ITEM_MAGIC)))
    by (vm_compute; split; [discriminate|reflexivity]).
  assert (Hb : 0 <= buffer_size (one_item_store PG_ITEM_MAGIC) < 2 ^ 31)
    by (vm_compute; split; [discriminate|reflexivity]).
  split; [exact Hr|]. split; [exact Hb|].
  split; [vm_compute; reflexivity|].
  exact (row_position_spec 2 2 [] None (one_item_store PG_ITEM_MAGIC) _ _
           Hr Hb one_item_session).
Defined.

(** ** The read cursor stays inside the arena *)

Lemma next_item_parts (h : LoggingShmemHdr) (c c' : logged_data_ctx)
  (row : log_row) (h' : LoggingShmemHdr) :
  next_item h c = Ok (SRF_RETURN_NEXT c' row, h') ->
  exists item item',
    alloc_item h = Ok item
    /\ copy_texts h c item = Ok (item', h', c')
    /\ form_tuple item' (to_int32 (readpos h)) = Ok row.
Proof.
  unfold next_item. intros H.
  destruct (alloc_item h) as [item| | | |] eqn:E1; try discriminate H.
  cbn [bind] in H.
  destruct (copy_texts h c item) as [[[item1 h1] c1]| | | |] eqn:E2;
    try discriminate H.
  cbn [bind] in H.
  destruct (form_tuple item1 (to_int32 (readpos h))) as [row1| | | |] eqn:E3;
    try discriminate H.
  cbn [bind] in H. injection H as <- <- <-.
  exists item, item1. now repeat split.
Qed.

(** Where each branch leaves [readpos]. *)
Lemma copy_texts_readpos (h : LoggingShmemHdr) (c : logged_data_ctx)
  (item item' : CollectedItem) (h' : LoggingShmemHdr)
  (c' : logged_data_ctx) :
  0 <= readpos h ->
  readpos h + ITEM_HDR_LEN <= buffer_size h ->
  buffer_size h < 2 ^ 31 ->
  0 < totallen item <= buffer_size h ->
  copy_texts h c item = Ok (item', h', c') ->
  buffer_size h' = buffer_size h
  /\ if readpos h + totallen item <? buffer_size h
     then two_parts h (totallen item) = false
          /\ readpos h' = readpos h + totallen item
     else two_parts h (totallen item) = true
          /\ readpos h' = readpos h + totallen item - buffer_size h.
Proof.
  unfold ITEM_HDR_LEN. intros Hrp Hhdr Hbs Htl H.
  assert (Htwo : two_parts h (totallen item)
                 = (readpos h + totallen item >=? buffer_size h))
    by (apply two_parts_spec; lia).
  rewrite Z.geb_leb in Htwo. rewrite Z.ltb_antisym.
  unfold copy_texts in H. rewrite Htwo in *.
  destruct (buffer_size h <=? readpos h + totallen item) eqn:Ecmp;
    cbn [negb].
  - apply Z.leb_le in Ecmp. cbv zeta in H.
    match type of H with
    | context [load ?m ?o ?n] => destruct (load m o n); try discriminate H
    end.
    cbn [bind] in H.
    match type of H with
    | context [memcpy ?d ?o ?x] => destruct (memcpy d o x); try discriminate H
    end.
    cbn [bind data readpos buffer_size set_readpos] in H.
    match type of H with
    | context [load ?m ?o ?n] => destruct (load m o n); try discriminate H
    end.
    cbn [bind] in H.
    match type of H with
    | context [memcpy ?d ?o ?x] => destruct (memcpy d o x); try discriminate H
    end.
    cbn [bind] in H. injection H as <- <- <-.
    cbn [readpos buffer_size set_readpos].
    rewrite (to_uint32_small (readpos h + totallen item))
      by (unfold is_uint32; lia).
    rewrite to_uint32_small by (unfold is_uint32; lia).
    now repeat split.
  - apply Z.leb_gt in Ecmp. cbv zeta in H.
    match type of H with
    | context [load ?m ?o ?n] => destruct (load m o n); try discriminate H
    end.
    cbn [bind] in H.
    match type of H with
    | context [memcpy ?d ?o ?x] => destruct (memcpy d o x); try discriminate H
    end.
    cbn [bind] in H. injection H as <- <- <-.
    cbn [readpos buffer_size set_readpos].
    rewrite to_uint32_small by (unfold is_uint32; lia).
    now repeat split.
Qed.

Lemma call_done_inv (fuel : nat) (user_fctx : option logged_data_ctx)
  (h h' : LoggingShmemHdr) :
  get_logged_data fuel user_fctx h = Ok (SRF_RETURN_DONE, h') ->
  (readpos h' = readpos h \/ readpos h' = 0)
  /\ buffer_size h' = buffer_size h.
Proof.
  unfold get_logged_data. intros H.
  assert (Hstart : exists h1 c,
             readpos h1 = readpos h /\ buffer_size h1 = buffer_size h
             /\ get_logged_data_loop fuel h1 c = Ok (SRF_RETURN_DONE, h')).
  { destruct user_fctx as [c|].
    - exists h, c. now repeat split.
    - unfold first_call_init, LWLockAcquire in H.
      destruct (hdr_lock h); [discriminate H|]. cbn [bind] in H.
      eexists. eexists. split; [|split; [|exact H]]; reflexivity. }
  destruct Hstart as (h1 & c & Hr & Hb & Hloop).
  destruct (loop_done_inv _ _ _ _ Hloop) as (h0 & c0 & Hat & _ & ->).
  destruct Hat as [[-> ->]|(_ & _ & -> & ->)]; cbn; auto.
Qed.

Lemma reset_endpos_loop_inv (fuel : nat) :
  forall (ps : producers) (h : LoggingShmemHdr) (curpos : Z)
         (h' : LoggingShmemHdr),
    reset_endpos_loop fuel ps h curpos = Ok h' -> h' = set_endpos 0 h.
Proof.
  induction fuel as [|fuel IH]; intros ps h curpos h' H; [discriminate H|].
  cbn [reset_endpos_loop] in H. unfold pg_atomic_compare_exchange_u32 in H.
  destruct (endpos (producer_move (hd None ps) h) =? curpos).
  - injection H as <-. apply set_endpos_producer_move.
  - apply IH in H. rewrite H. apply set_endpos_producer_move.
Qed.

(** C10.  Let [readpos] be inside the arena and let the header that a
    call reads, if it reads one, carry a [totallen] in
    (0, buffer_size].  Then a call of [get_logged_data] that returns and
    a reset that returns leave [readpos] inside the arena.  A call that
    is done leaves it where it was or at 0; a call that returns the
    record at [pos] leaves it at [pos + totallen] when that is below
    [buffer_size] and at [pos + totallen - buffer_size] otherwise; the
    reset leaves it at 0. *)
Theorem readpos_stays_in_arena (fuel : nat)
  (user_fctx : option logged_data_ctx) (ps : producers)
  (h : LoggingShmemHdr) :
  0 <= readpos h < buffer_size h ->
  buffer_size h < 2 ^ 31 ->
  (forall tl, load_int (data h) (read_offset h + off_totallen) = Ok tl ->
              0 < tl <= buffer_size h) ->
  (forall r h',
      get_logged_data fuel user_fctx h = Ok (r, h') ->
      0 <= readpos h' < buffer_size h'
      /\ buffer_size h' = buffer_size h
      /\ match r with
         | SRF_RETURN_DONE => readpos h' = readpos h \/ readpos h' = 0
         | SRF_RETURN_NEXT _ row =>
             let pos := row_position row in
             pos = read_offset h
             /\ exists tl,
                 load_int (data h) (pos + off_totallen) = Ok tl
                 /\ readpos h'
                    = if pos + tl <? buffer_size h then pos + tl
                      else pos + tl - buffer_size h
         end)
  /\ (forall h',
        reset_counters_in_shmem fuel ps h = Ok h' ->
        readpos h' = 0 /\ 0 <= readpos h' < buffer_size h').
Proof.
  intros Hrp Hbs Hhdr. split.
  - intros r h' Hcall. destruct r as [c' row|].
    + destruct (call_next_inv _ _ _ _ _ _ Hcall)
        as (h0 & c0 & Hr0 & Hd0 & Hb0 & _ & Hp & Hnext).
      destruct (next_item_inv _ _ _ _ _ Hnext) as (_ & Hpos & _).
      destruct (next_item_parts _ _ _ _ _ Hnext)
        as (item & item' & Halloc & Hcopy & _).
      apply alloc_item_inv in Halloc. destruct Halloc as (Hload & _ & _).
      rewrite Hd0, Hr0 in Hload. specialize (Hhdr _ Hload).
      assert (Hr0' : 0 <= readpos h0 < buffer_size h).
      { rewrite Hr0. unfold read_offset.
        destruct (header_past_end h); lia. }
      rewrite header_past_end_spec in Hp
        by (unfold is_uint32; rewrite ?Hb0; lia).
      rewrite Z.gtb_ltb in Hp. apply Z.ltb_ge in Hp.
      assert (Hpos' : row_position row = readpos h0).
      { rewrite Hpos. apply to_int32_small. unfold is_int32. lia. }
      apply copy_texts_readpos in Hcopy; try lia.
      destruct Hcopy as [Hb' Hbranch]. rewrite Hb0 in *.
      cbv zeta. rewrite Hpos', Hr0 in *.
      destruct (read_offset h + totallen item <? buffer_size h) eqn:Ecmp;
        destruct Hbranch as [_ Hr'];
        [apply Z.ltb_lt in Ecmp|apply Z.ltb_ge in Ecmp].
      * split; [lia|]. split; [assumption|]. split; [reflexivity|].
        exists (totallen item). rewrite (proj2 (Z.ltb_lt _ _) Ecmp).
        now split.
      * split; [lia|]. split; [assumption|]. split; [reflexivity|].
        exists (totallen item). rewrite (proj2 (Z.ltb_ge _ _) Ecmp).
        now split.
    + destruct (call_done_inv _ _ _ _ Hcall) as [Hr' Hb']. rewrite Hb'.
      split; [destruct Hr' as [->| ->]; lia|]. now split.
  - intros h' H. unfold reset_counters_in_shmem, LWLockAcquire in H.
    destruct (hdr_lock h); [discriminate H|]. cbn [bind] in H.
    destruct (reset_endpos_loop fuel ps (set_lock true h) (endpos h))
      as [h2| | | |] eqn:Eloop; try discriminate H.
    apply reset_endpos_loop_inv in Eloop. subst h2.
    cbn [bind] in H. injection H as <-. cbn. lia.
Qed.

Lemma readpos_stays_in_arena_witness :
  let h := LWLockRelease straddling_store in
  0 <= readpos h < buffer_size h
  /\ buffer_size h < 2 ^ 31
  /\ (forall tl, load_int (data h) (read_offset h + off_totallen) = Ok tl ->
                 0 < tl <= buffer_size h)
  /\ get_logged_data 2 None h
     = Ok (SRF_RETURN_NEXT (mkCtx 4 32 false) (sample_row 32),
           set_readpos 4 straddling_store)
  /\ 0 <= readpos (set_readpos 4 straddling_store)
     < buffer_size (set_readpos 4 straddling_store)
  /\ reset_counters_in_shmem 2 [] h = Ok (mkHdr (data h) 0 0 64 false false)
  /\ 0 <= readpos (mkHdr (data h) 0 0 64 false false)
     < buffer_size (mkHdr (data h) 0 0 64 false false).
Proof.
  intros h.
  assert (H1 : 0 <= readpos h < buffer_size h) by (cbn; lia).
  assert (H2 : buffer_size h < 2 ^ 31) by (cbn; lia).
  assert (H3 : forall tl,
             load_int (data h) (read_offset h + off_totallen) = Ok tl ->
             0 < tl <= buffer_size h).
  { intros tl Htl. vm_compute in Htl. injection Htl as <-. cbn. lia. }
  assert (Hcall : get_logged_data 2 None h
                  = Ok (SRF_RETURN_NEXT (mkCtx 4 32 false) (sample_row 32),
                        set_readpos 4 straddling_store))
    by (vm_compute; reflexivity).
  assert (Hreset : reset_counters_in_shmem 2 [] h
                   = Ok (mkHdr (data h) 0 0 64 false false))
    by reflexivity.
  destruct (readpos_stays_in_arena 2 None [] h H1 H2 H3) as [Hc Hr].
  split; [exact H1|]. split; [exact H2|]. split; [exact H3|].
  split; [exact Hcall|]. split; [exact (proj1 (Hc _ _ Hcall))|].
  split; [exact Hreset|]. exact (proj2 (Hr _ Hreset)).
Defined.

(** ** Integers and bytes of a record *)

Lemma byte_val_of_Z (x : Z) : byte_val (byte_of_Z x) = x mod 256.
Proof.
  unfold byte_val, byte_of_Z.
  pose proof (Z.mod_pos_bound x 256 eq_refl) as Hb.
  destruct (Byte.of_N (Z.to_N (x mod 256))) as [b|] eqn:E.
  - apply Byte.to_of_N in E. rewrite E. apply Z2N.id. lia.
  - apply Byte.of_N_None_iff in E. lia.
Qed.

Lemma le_uint32_int_bytes (x : Z) : le_uint32 (int_bytes x) = x mod 2 ^ 32.
Proof.
  unfold le_uint32, int_bytes. rewrite !byte_val_of_Z.
  change (2 ^ 8) with 256. change (2 ^ 16) with (256 * 256).
  change (2 ^ 24) with (256 * 256 * 256).
  change (2 ^ 32) with (256 * (256 * (256 * 256))).
  rewrite <- !Z.div_div by lia.
  rewrite 3 Z.rem_mul_r by lia. ring.
Qed.

Lemma to_int32_mod (x : Z) : is_int32 x -> to_int32 (x mod 2 ^ 32) = x.
Proof.
  unfold is_int32, to_int32. intros H.
  rewrite Zplus_mod_idemp_l, Z.mod_small; lia.
Qed.

Lemma to_schar_mod (x : Z) : -128 <= x < 128 -> to_schar (x mod 256) = x.
Proof.
  unfold to_schar. intros H.
  rewrite Zplus_mod_idemp_l, Z.mod_small; lia.
Qed.

Lemma len_item_bytes (mg en lv : Z) (msg det hnt : list byte) :
  len (item_bytes mg en lv msg det hnt)
  = ITEM_HDR_LEN + len msg + len det + len hnt.
Proof.
  unfold item_bytes, int_bytes, ITEM_HDR_LEN.
  rewrite !len_app. unfold len. cbn [length]. lia.
Qed.

(** ** Reading round the end of the arena *)

Lemma ring_read_length (mem : list byte) (off n : Z) :
  length (ring_read mem off n) = Z.to_nat n.
Proof. unfold ring_read. now rewrite length_map, length_seq. Qed.

Lemma nth_ring_read (mem : list byte) (off n : Z) (i : nat) :
  (i < Z.to_nat n)%nat ->
  nth i (ring_read mem off n) x00
  = nth (Z.to_nat ((off + Z.of_nat i) mod len mem)) mem x00.
Proof.
  intros Hi. unfold ring_read.
  rewrite (nth_indep _ x00
             (nth (Z.to_nat ((off + Z.of_nat 0%nat) mod len mem)) mem x00))
    by (rewrite length_map, length_seq; exact Hi).
  rewrite (map_nth (fun i => nth (Z.to_nat ((off + Z.of_nat i) mod len mem))
                                 mem x00)).
  now rewrite seq_nth.
Qed.

Lemma load_ring (mem : list byte) (off n : Z) :
  0 <= off -> 0 <= n -> off + n <= len mem ->
  load mem off n = Ok (ring_read mem off n).
Proof.
  intros H1 H2 H3. rewrite load_in_bounds by assumption. f_equal.
  apply (nth_ext _ _ x00 x00).
  - rewrite ring_read_length, length_firstn, length_skipn.
    unfold len in H3. lia.
  - intros i Hi. rewrite length_firstn, length_skipn in Hi.
    rewrite nth_firstn, nth_skipn, nth_ring_read by lia.
    replace (i <? Z.to_nat n)%nat with true
      by (symmetry; apply Nat.ltb_lt; lia).
    f_equal. rewrite Z.mod_small by lia. lia.
Qed.

Lemma ring_read_slice (mem : list byte) (off n k m : Z) :
  0 <= k -> 0 <= m -> k + m <= n ->
  firstn (Z.to_nat m) (skipn (Z.to_nat k) (ring_read mem off n))
  = ring_read mem (off + k) m.
Proof.
  intros Hk Hm Hn. apply (nth_ext _ _ x00 x00).
  - rewrite length_firstn, length_skipn, !ring_read_length. lia.
  - intros i Hi.
    rewrite length_firstn, length_skipn, ring_read_length in Hi.
    rewrite nth_firstn, nth_skipn, !nth_ring_read by lia.
    replace (i <? Z.to_nat m)%nat with true
      by (symmetry; apply Nat.ltb_lt; lia).
    do 3 f_equal. lia.
Qed.

Lemma ring_read_mod (mem : list byte) (off n : Z) :
  ring_read mem (off mod len mem) n = ring_read mem off n.
Proof.
  unfold ring_read. apply map_ext. intros i.
  now rewrite Zplus_mod_idemp_l.
Qed.

Lemma ring_read_app (mem : list byte) (off a b : Z) :
  0 <= a -> 0 <= b ->
  ring_read mem off (a + b)
  = ring_read mem off a ++ ring_read mem (off + a) b.
Proof.
  intros Ha Hb.
  rewrite <- (firstn_skipn (Z.to_nat a) (ring_read mem off (a + b))).
  f_equal.
  - pose proof (ring_read_slice mem off (a + b) 0 a) as H.
    rewrite Z.add_0_r in H. cbn [Z.to_nat skipn] in H. apply H; lia.
  - rewrite <- (ring_read_slice mem off (a + b) a b) by lia.
    symmetry. apply firstn_all2.
    rewrite length_skipn, ring_read_length. lia.
Qed.

(** The two branches of [copy_texts] as one reading round the end of
    the arena. *)
Lemma copy_texts_ring (h : LoggingShmemHdr) (c : logged_data_ctx)
  (it : CollectedItem) :
  len (data h) = buffer_size h ->
  0 <= readpos h ->
  readpos h + ITEM_HDR_LEN <= buffer_size h ->
  buffer_size h < 2 ^ 31 ->
  ITEM_HDR_LEN <= totallen it <= buffer_size h ->
  len (item_data it) = totallen it - ITEM_HDR_LEN ->
  copy_texts h c it
  = Ok (set_item_data
          (ring_read (data h) (readpos h + ITEM_HDR_LEN)
             (totallen it - ITEM_HDR_LEN)) it,
        set_readpos (ring_next (buffer_size h) (readpos h) (totallen it)) h,
        if readpos h + totallen it >=? buffer_size h
        then set_ctx_wraparound false c else c).
Proof.
  intros Hlen Hrp Hhdr Hbs Htl Hdata.
  unfold copy_texts, ring_next.
  rewrite two_parts_spec by (unfold ITEM_HDR_LEN in *; lia).
  unfold ITEM_HDR_LEN in *.
  destruct (readpos h + totallen it >=? buffer_size h) eqn:Ecmp.
  - apply Z.geb_le in Ecmp. cbv zeta.
    rewrite taillen_of_spec by (unfold ITEM_HDR_LEN; lia).
    unfold ITEM_HDR_LEN.
    set (taillen := buffer_size h - readpos h - 28).
    rewrite (to_size_t_small taillen) by (unfold taillen; lia).
    rewrite (load_ring (data h) (readpos h + 28) taillen)
      by (unfold taillen; lia).
    cbn [bind].
    rewrite memcpy_front
      by (unfold len in *; rewrite ring_read_length; unfold taillen; lia).
    cbn [bind readpos buffer_size data set_readpos].
    rewrite (to_uint32_small (readpos h + totallen it))
      by (unfold is_uint32; lia).
    rewrite (to_uint32_small (readpos h + totallen it - buffer_size h))
      by (unfold is_uint32; lia).
    rewrite (load_ring (data h) 0 (readpos h + totallen it - buffer_size h))
      by lia.
    cbn [bind].
    match goal with
    | |- context [memcpy (?a ++ ?b) taillen ?s] =>
        replace (memcpy (a ++ b) taillen s) with (memcpy (a ++ b) (len a) s)
          by (f_equal; unfold len; rewrite ring_read_length;
              unfold taillen; lia)
    end.
    rewrite memcpy_back
      by (unfold len in *; rewrite length_skipn, !ring_read_length;
          unfold taillen; lia).
    cbn [bind].
    assert (Hd : ring_read (data h) (readpos h + 28) taillen
                 ++ ring_read (data h) 0
                      (readpos h + totallen it - buffer_size h)
                 = ring_read (data h) (readpos h + 28) (totallen it - 28)).
    { replace (totallen it - 28)
        with (taillen + (readpos h + totallen it - buffer_size h))
        by (unfold taillen; lia).
      rewrite ring_read_app by (unfold taillen; lia). f_equal.
      rewrite <- (ring_read_mod (data h) (readpos h + 28 + taillen)).
      replace (readpos h + 28 + taillen) with (buffer_size h)
        by (unfold taillen; lia).
      now rewrite Hlen, Z.mod_same by lia. }
    assert (Hp : readpos h + totallen it - buffer_size h
                 = (readpos h + totallen it) mod buffer_size h)
      by (apply (Z.mod_unique _ _ 1); lia).
    rewrite Hd, Hp. reflexivity.
  - assert (Hlt : readpos h + totallen it < buffer_size h).
    { destruct (Z_lt_le_dec (readpos h + totallen it) (buffer_size h));
        [assumption|].
      apply Z.geb_le in l. rewrite l in Ecmp. discriminate Ecmp. }
    cbv zeta. rewrite (to_size_t_small (totallen it - 28)) by lia.
    rewrite (load_ring (data h) (readpos h + 28) (totallen it - 28)) by lia.
    cbn [bind].
    rewrite memcpy_whole
      by (unfold len in *; rewrite ring_read_length; lia).
    cbn [bind]. rewrite to_uint32_small by (unfold is_uint32; lia).
    now rewrite Z.mod_small by lia.
Qed.

(** ** Decoding one record *)

Lemma until_nul_app (s rest : list byte) :
  no_nul s -> until_nul (s ++ x00 :: rest) = Ok s.
Proof.
  unfold no_nul. induction s as [|b s IH]; intros Hs; [reflexivity|].
  cbn [app until_nul].
  destruct (Byte.eqb b x00) eqn:E.
  - apply Byte.byte_dec_bl in E. subst b. exfalso. apply Hs. now left.
  - rewrite IH; [reflexivity|]. intros Hin. apply Hs. now right.
Qed.

Lemma cstring_at_app (pre s post : list byte) :
  no_nul s -> cstring_at (pre ++ s ++ x00 :: post) (len pre) = Ok s.
Proof.
  intros Hs. unfold cstring_at.
  replace (0 <=? len pre) with true
    by (symmetry; apply Z.leb_le, len_nonneg).
  replace (len pre <=? len (pre ++ s ++ x00 :: post)) with true
    by (symmetry; apply Z.leb_le; rewrite len_app;
        pose proof (len_nonneg (s ++ x00 :: post)); lia).
  cbn [andb]. unfold len. rewrite Nat2Z.id, skipn_app, skipn_all, Nat.sub_diag.
  cbn [app skipn]. now apply until_nul_app.
Qed.

(** The header fields that [copy_header] finds where the first
    [ITEM_HDR_LEN] bytes of a record lie. *)
Lemma copy_header_item_bytes (mem : list byte) (pos : Z) (blk : list byte)
  (mg en lv : Z) (msg det hnt : list byte) :
  (forall off n,
      0 <= off -> 0 <= n -> off + n <= ITEM_HDR_LEN ->
      load mem (pos + off) n
      = Ok (firstn (Z.to_nat n)
              (skipn (Z.to_nat off) (item_bytes mg en lv msg det hnt)))) ->
  copy_header mem pos blk
  = Ok (mkItem (to_int32 (mg mod 2 ^ 32))
          (to_int32 ((ITEM_HDR_LEN + len msg + len det + len hnt) mod 2 ^ 32))
          (to_int32 (en mod 2 ^ 32))
          (to_schar (lv mod 256))
          (to_int32 (len msg mod 2 ^ 32))
          (to_int32 (len det mod 2 ^ 32))
          (to_int32 (len hnt mod 2 ^ 32))
          (firstn (Z.to_nat ITEM_HDR_LEN) (item_bytes mg en lv msg det hnt))
          blk).
Proof.
  intros Hload. unfold copy_header, load_int, load_char.
  replace pos with (pos + 0) at 1 by lia.
  rewrite (Hload 0 ITEM_HDR_LEN) by (unfold ITEM_HDR_LEN; lia).
  cbn [bind].
  rewrite (Hload off_magic 4), (Hload off_totallen 4),
    (Hload off_saved_errno 4), (Hload off_elevel 1),
    (Hload off_message_len 4), (Hload off_detail_len 4),
    (Hload off_hint_len 4)
    by (unfold off_magic, off_totallen, off_saved_errno, off_elevel,
          off_message_len, off_detail_len, off_hint_len, ITEM_HDR_LEN; lia).
  cbn [bind].
  change (firstn (Z.to_nat 4)
            (skipn (Z.to_nat off_magic) (item_bytes mg en lv msg det hnt)))
    with (int_bytes mg).
  change (firstn (Z.to_nat 4)
            (skipn (Z.to_nat off_totallen) (item_bytes mg en lv msg det hnt)))
    with (int_bytes (ITEM_HDR_LEN + len msg + len det + len hnt)).
  change (firstn (Z.to_nat 4)
            (skipn (Z.to_nat off_saved_errno)
               (item_bytes mg en lv msg det hnt)))
    with (int_bytes en).
  change (firstn (Z.to_nat 1)
            (skipn (Z.to_nat off_elevel) (item_bytes mg en lv msg det hnt)))
    with [byte_of_Z lv].
  change (firstn (Z.to_nat 4)
            (skipn (Z.to_nat off_message_len)
               (item_bytes mg en lv msg det hnt)))
    with (int_bytes (len msg)).
  change (firstn (Z.to_nat 4)
            (skipn (Z.to_nat off_detail_len)
               (item_bytes mg en lv msg det hnt)))
    with (int_bytes (len det)).
  change (firstn (Z.to_nat 4)
            (skipn (Z.to_nat off_hint_len) (item_bytes mg en lv msg det hnt)))
    with (int_bytes (len hnt)).
  cbn [hd]. now rewrite !le_uint32_int_bytes, byte_val_of_Z.
Qed.

Lemma len_opt_cstr (o : option (list byte)) :
  len (opt_cstr o) = match o with Some s => len s + 1 | None => 0 end.
Proof.
  destruct o as [s|]; [|reflexivity].
  cbn [opt_cstr]. rewrite len_app. reflexivity.
Qed.

(** The tuple that [form_tuple] makes of the texts of an event. *)
Lemma form_tuple_event (ev : log_event) (it : CollectedItem) (pos : Z) :
  no_nul (ev_message ev) ->
  opt_no_nul (ev_detail ev) ->
  opt_no_nul (ev_hint ev) ->
  elevel it = ev_level ev ->
  saved_errno it = ev_errno ev ->
  message_len it = len (ev_message ev ++ [x00]) ->
  detail_len it = len (opt_cstr (ev_detail ev)) ->
  hint_len it = len (opt_cstr (ev_hint ev)) ->
  len (item_hdr it) = ITEM_HDR_LEN ->
  item_data it
  = (ev_message ev ++ [x00]) ++ opt_cstr (ev_detail ev)
    ++ opt_cstr (ev_hint ev) ->
  form_tuple it pos = Ok (event_row ev pos).
Proof.
  intros Hm Hd Hh Hlv Hen Hml Hdl Hhl Hraw Hdata.
  unfold form_tuple, event_row, item_block. cbv zeta.
  rewrite Hlv, Hen, Hml, Hdl, Hhl, Hdata, <- Hraw, !len_opt_cstr.
  generalize (item_hdr it). intros hdr.
  assert (Hmsg : cstring_at
                   (hdr ++ (ev_message ev ++ [x00])
                    ++ opt_cstr (ev_detail ev) ++ opt_cstr (ev_hint ev))
                   (len hdr)
                 = Ok (ev_message ev)).
  { rewrite <- (app_assoc (ev_message ev) [x00]). cbn [app].
    exact (cstring_at_app hdr (ev_message ev) _ Hm). }
  rewrite Hmsg. cbn [bind].
  replace (len hdr + len (ev_message ev ++ [x00]))
    with (len (hdr ++ ev_message ev ++ [x00]))
    by (rewrite !len_app; reflexivity).
  rewrite (app_assoc hdr (ev_message ev ++ [x00])).
  generalize (hdr ++ ev_message ev ++ [x00]). intros pre.
  destruct (ev_detail ev) as [d|]; destruct (ev_hint ev) as [t|];
    cbn [opt_cstr opt_no_nul] in *.
  - replace (len d + 1 =? 0) with false
      by (symmetry; apply Z.eqb_neq; pose proof (len_nonneg d); lia).
    replace (len t + 1 =? 0) with false
      by (symmetry; apply Z.eqb_neq; pose proof (len_nonneg t); lia).
    rewrite <- (app_assoc d [x00]). cbn [app].
    rewrite (cstring_at_app pre d _ Hd). cbn [bind].
    replace (len pre + (len d + 1)) with (len (pre ++ d ++ [x00]))
      by (rewrite !len_app; reflexivity).
    replace (pre ++ d ++ x00 :: t ++ [x00])
      with ((pre ++ d ++ [x00]) ++ t ++ x00 :: [])
      by (rewrite <- !app_assoc; reflexivity).
    rewrite (cstring_at_app _ t [] Hh). reflexivity.
  - replace (len d + 1 =? 0) with false
      by (symmetry; apply Z.eqb_neq; pose proof (len_nonneg d); lia).
    rewrite app_nil_r.
    rewrite (cstring_at_app pre d [] Hd). reflexivity.
  - replace (len t + 1 =? 0) with false
      by (symmetry; apply Z.eqb_neq; pose proof (len_nonneg t); lia).
    cbn [app Z.eqb bind].
    rewrite (cstring_at_app pre t [] Hh). reflexivity.
  - reflexivity.
Qed.

(** The record of an event, lying at [readpos] (round the end of the
    arena if need be, but with its header in one piece), is read back
    as the tuple of the event, with any [magic]. *)
Lemma next_item_record (mg : Z) (h : LoggingShmemHdr) (c : logged_data_ctx)
  (ev : log_event) :
  len (data h) = buffer_size h ->
  buffer_size h < 2 ^ 31 ->
  0 <= readpos h ->
  readpos h + ITEM_HDR_LEN <= buffer_size h ->
  event_ok ev ->
  len (record_bytes mg ev) <= buffer_size h ->
  ring_read (data h) (readpos h) (len (record_bytes mg ev)) = record_bytes mg ev ->
  next_item h c
  = Ok (SRF_RETURN_NEXT
          (if readpos h + len (record_bytes mg ev) >=? buffer_size h
           then set_ctx_wraparound false c else c)
          (event_row ev (readpos h)),
        set_readpos
          (ring_next (buffer_size h) (readpos h) (len (record_bytes mg ev))) h).
Proof.
  intros Hlen Hbs Hrp Hhdr (Hlv & Hen & Hm & Hd & Hh & Hmax) Hfit Hring.
  pose proof (len_item_bytes mg (ev_errno ev) (ev_level ev)
                (ev_message ev ++ [x00]) (opt_cstr (ev_detail ev))
                (opt_cstr (ev_hint ev))) as HL.
  fold (record_bytes mg ev) in HL.
  pose proof (len_item_bytes PG_ITEM_MAGIC (ev_errno ev) (ev_level ev)
                (ev_message ev ++ [x00]) (opt_cstr (ev_detail ev))
                (opt_cstr (ev_hint ev))) as HL0.
  fold (event_bytes ev) in HL0.
  pose proof (len_nonneg (ev_message ev ++ [x00])) as Hn1.
  pose proof (len_nonneg (opt_cstr (ev_detail ev))) as Hn2.
  pose proof (len_nonneg (opt_cstr (ev_hint ev))) as Hn3.
  unfold ITEM_HDR_LEN, MaxAllocSize in *.
  assert (Hload : forall off n,
             0 <= off -> 0 <= n -> off + n <= ITEM_HDR_LEN ->
             load (data h) (readpos h + off) n
             = Ok (firstn (Z.to_nat n)
                     (skipn (Z.to_nat off) (record_bytes mg ev)))).
  { unfold ITEM_HDR_LEN. intros off n Ho Hn Hon.
    rewrite load_ring by lia.
    rewrite <- (ring_read_slice _ (readpos h) (len (record_bytes mg ev)) off n)
      by lia.
    now rewrite Hring. }
  assert (Htl : load_int (data h) (readpos h + off_totallen)
                = Ok (len (record_bytes mg ev))).
  { unfold load_int. rewrite (Hload off_totallen 4)
      by (unfold off_totallen, ITEM_HDR_LEN; lia).
    change (firstn (Z.to_nat 4)
              (skipn (Z.to_nat off_totallen) (record_bytes mg ev)))
      with (int_bytes (ITEM_HDR_LEN + len (ev_message ev ++ [x00])
                       + len (opt_cstr (ev_detail ev))
                       + len (opt_cstr (ev_hint ev)))).
    cbn [bind]. unfold ITEM_HDR_LEN.
    rewrite le_uint32_int_bytes, to_int32_mod, HL
      by (unfold is_int32; lia).
    reflexivity. }
  unfold next_item, alloc_item. rewrite Htl. cbn [bind].
  unfold palloc0. rewrite to_size_t_small by lia.
  replace (len (record_bytes mg ev) <=? MaxAllocSize) with true
    by (symmetry; apply Z.leb_le; unfold MaxAllocSize; lia).
  cbn [bind].
  replace (len (repeat x00 (Z.to_nat (len (record_bytes mg ev)))) <? ITEM_HDR_LEN)
    with false
    by (symmetry; apply Z.ltb_ge; unfold len, ITEM_HDR_LEN in *;
        rewrite repeat_length; lia).
  unfold record_bytes in Hload.
  rewrite (copy_header_item_bytes _ _ _ _ _ _ _ _ _ Hload).
  fold (record_bytes mg ev) in Hload. cbn [bind]. unfold ITEM_HDR_LEN.
  rewrite (to_int32_mod (28 + len (ev_message ev ++ [x00])
                         + len (opt_cstr (ev_detail ev))
                         + len (opt_cstr (ev_hint ev))))
    by (unfold is_int32; lia).
  rewrite (to_int32_mod (ev_errno ev)) by assumption.
  rewrite (to_schar_mod (ev_level ev)) by assumption.
  rewrite (to_int32_mod (len (ev_message ev ++ [x00])))
    by (unfold is_int32; lia).
  rewrite (to_int32_mod (len (opt_cstr (ev_detail ev))))
    by (unfold is_int32; lia).
  rewrite (to_int32_mod (len (opt_cstr (ev_hint ev))))
    by (unfold is_int32; lia).
  rewrite <- HL.
  rewrite copy_texts_ring;
    cbn [totallen item_data item_hdr]; unfold ITEM_HDR_LEN; try lia;
    [|unfold len in *; rewrite length_skipn, repeat_length; lia].
  cbn [bind].
  rewrite form_tuple_event with (ev := ev); cbn [bind]; try assumption;
    try reflexivity.
  - rewrite to_int32_small by (unfold is_int32; lia). reflexivity.
  - cbn [item_data set_item_data].
    rewrite <- (ring_read_slice _ (readpos h) (len (record_bytes mg ev)) 28
                  (len (record_bytes mg ev) - 28)) by lia.
    rewrite Hring, firstn_all2
      by (rewrite length_skipn; unfold len; lia).
    reflexivity.
Qed.

Lemma next_item_event (h : LoggingShmemHdr) (c : logged_data_ctx)
  (ev : log_event) :
  len (data h) = buffer_size h ->
  buffer_size h < 2 ^ 31 ->
  0 <= readpos h ->
  readpos h + ITEM_HDR_LEN <= buffer_size h ->
  event_ok ev ->
  len (event_bytes ev) <= buffer_size h ->
  ring_read (data h) (readpos h) (len (event_bytes ev)) = event_bytes ev ->
  next_item h c
  = Ok (SRF_RETURN_NEXT
          (if readpos h + len (event_bytes ev) >=? buffer_size h
           then set_ctx_wraparound false c else c)
          (event_row ev (readpos h)),
        set_readpos
          (ring_next (buffer_size h) (readpos h) (len (event_bytes ev))) h).
Proof. exact (next_item_record PG_ITEM_MAGIC h c ev). Qed.

Lemma call_next_event (fuel : nat) (h : LoggingShmemHdr)
  (c : logged_data_ctx) (ev : log_event) :
  len (data h) = buffer_size h ->
  buffer_size h < 2 ^ 31 ->
  0 <= readpos h ->
  readpos h + ITEM_HDR_LEN <= buffer_size h ->
  event_ok ev ->
  len (event_bytes ev) <= buffer_size h ->
  ring_read (data h) (readpos h) (len (event_bytes ev)) = event_bytes ev ->
  loop_cond h c = true ->
  get_logged_data (S fuel) (Some c) h = next_item h c.
Proof.
  intros Hlen Hbs Hrp Hhdr Hev Hfit Hring Hc.
  unfold get_logged_data. cbn [bind].
  rewrite loop_extract; [reflexivity|exact Hc|].
  rewrite header_past_end_spec.
  - rewrite Z.gtb_ltb. apply Z.ltb_ge. exact Hhdr.
  - unfold is_uint32, ITEM_HDR_LEN in *. lia.
  - unfold ITEM_HDR_LEN in *. lia.
Qed.

Lemma sample_event_ok : event_ok sample_event /\ event_ok other_event.
Proof.
  split.
  - split; [now vm_compute|]. split; [now vm_compute|].
    split; [|split; [exact I|split; [|now vm_compute]]].
    + intros Hin. cbn in Hin.
      repeat (destruct Hin as [Hin|Hin]; [discriminate Hin|]). exact Hin.
    + intros Hin. cbn in Hin.
      repeat (destruct Hin as [Hin|Hin]; [discriminate Hin|]). exact Hin.
  - split; [now vm_compute|]. split; [now vm_compute|].
    split; [|split; [|split; [|now vm_compute]]].
    + intros Hin. cbn in Hin.
      repeat (destruct Hin as [Hin|Hin]; [discriminate Hin|]). exact Hin.
    + intros Hin. exact Hin.
    + intros Hin. cbn in Hin.
      repeat (destruct Hin as [Hin|Hin]; [discriminate Hin|]). exact Hin.
Defined.

Lemma len_event_bytes_pos (ev : log_event) :
  ITEM_HDR_LEN < len (event_bytes ev).
Proof.
  unfold event_bytes. rewrite len_item_bytes, len_app.
  pose proof (len_nonneg (ev_message ev)).
  pose proof (len_nonneg (opt_cstr (ev_detail ev))).
  pose proof (len_nonneg (opt_cstr (ev_hint ev))).
  change (len [x00]) with 1. lia.
Qed.

Lemma len_events_bytes_cons (ev : log_event) (evs : list log_event) :
  len (events_bytes (ev :: evs))
  = len (event_bytes ev) + len (events_bytes evs).
Proof. unfold events_bytes. cbn [map concat]. apply len_app. Qed.

(** ** The magic of a record *)

(** C6, as the code has it.  The reader does not compare the [magic]
    of a record with [PG_ITEM_MAGIC]: whatever the [magic] field of a
    record holds, a call on the record returns the tuple of the event
    the record was made of and leaves [readpos] after the record, as it
    does when the field holds [PG_ITEM_MAGIC]. *)
Theorem any_magic_is_returned (fuel : nat) (mg : Z) (h : LoggingShmemHdr)
  (c : logged_data_ctx) (ev : log_event) :
  is_int32 mg ->
  len (data h) = buffer_size h ->
  buffer_size h < 2 ^ 31 ->
  0 <= readpos h ->
  readpos h + ITEM_HDR_LEN <= buffer_size h ->
  event_ok ev ->
  len (record_bytes mg ev) <= buffer_size h ->
  ring_read (data h) (readpos h) (len (record_bytes mg ev))
  = record_bytes mg ev ->
  loop_cond h c = true ->
  load_int (data h) (readpos h + off_magic) = Ok mg
  /\ get_logged_data (S fuel) (Some c) h
     = Ok (SRF_RETURN_NEXT
             (if readpos h + len (record_bytes mg ev) >=? buffer_size h
              then set_ctx_wraparound false c else c)
             (event_row ev (readpos h)),
           set_readpos
             (ring_next (buffer_size h) (readpos h)
                (len (record_bytes mg ev))) h).
Proof.
  intros Hmg Hlen Hbs Hrp Hhdr Hev Hfit Hring Hc.
  split.
  - pose proof (len_item_bytes mg (ev_errno ev) (ev_level ev)
                  (ev_message ev ++ [x00]) (opt_cstr (ev_detail ev))
                  (opt_cstr (ev_hint ev))) as HL.
    fold (record_bytes mg ev) in HL.
    pose proof (len_nonneg (ev_message ev ++ [x00])).
    pose proof (len_nonneg (opt_cstr (ev_detail ev))).
    pose proof (len_nonneg (opt_cstr (ev_hint ev))).
    unfold load_int, off_magic, ITEM_HDR_LEN in *.
    rewrite load_ring by lia.
    rewrite <- (ring_read_slice _ (readpos h) (len (record_bytes mg ev)) 0 4)
      by lia.
    rewrite Hring.
    change (firstn (Z.to_nat 4) (skipn (Z.to_nat 0) (record_bytes mg ev)))
      with (int_bytes mg).
    cbn [bind]. now rewrite le_uint32_int_bytes, to_int32_mod.
  - unfold get_logged_data. cbn [bind].
    rewrite loop_extract; [now apply next_item_record|exact Hc|].
    rewrite header_past_end_spec.
    + rewrite Z.gtb_ltb. apply Z.ltb_ge. exact Hhdr.
    + unfold is_uint32, ITEM_HDR_LEN in *. lia.
    + unfold ITEM_HDR_LEN in *. lia.
Qed.

Lemma any_magic_is_returned_witness :
  0 <> PG_ITEM_MAGIC
  /\ ring_read (data (one_item_store 0)) 0 36 = record_bytes 0 sample_event
  /\ load_int (data (one_item_store 0)) (0 + off_magic) = Ok 0
  /\ get_logged_data 1 (Some (mkCtx 36 0 false))
       (set_lock true (one_item_store 0))
     = Ok (SRF_RETURN_NEXT (mkCtx 36 0 false) (event_row sample_event 0),
           set_readpos 36 (set_lock true (one_item_store 0))).
Proof.
  assert (Hring : ring_read (data (set_lock true (one_item_store 0)))
                    (readpos (set_lock true (one_item_store 0)))
                    (len (record_bytes 0 sample_event))
                  = record_bytes 0 sample_event)
    by (vm_compute; reflexivity).
  split; [discriminate|]. split; [exact Hring|].
  exact (any_magic_is_returned 0 0 (set_lock true (one_item_store 0))
           (mkCtx 36 0 false) sample_event
           ltac:(now vm_compute) eq_refl eq_refl ltac:(now vm_compute)
           ltac:(now vm_compute) (proj1 sample_event_ok)
           ltac:(now vm_compute) Hring eq_refl).
Defined.

(** The texts are looked for in the block of the item, header
    included: with a negative message length the detail of the tuple is
    made of the bytes of the header, from the magic to the first zero
    byte (here the four bytes "ABCD" of the magic and the low byte of
    [totallen], 36). *)
Example texts_before_the_data :
  get_logged_data 1 (Some corrupt_ctx) (backward_store 0x44434241)
  = Ok (SRF_RETURN_NEXT corrupt_ctx
          (mkRow 20 2 (list_byte_of_string "abc")
             (Some (list_byte_of_string "ABCD$")) None 0),
        set_readpos 36 (backward_store 0x44434241)).
Proof. vm_compute. reflexivity. Qed.

(** C6 as the specification states it fails: a record whose magic is
    not [PG_ITEM_MAGIC] is returned like any other. *)
Lemma wrong_magic_is_returned :
  load_int (data (one_item_store 0)) (0 + off_magic) = Ok 0
  /\ 0 <> PG_ITEM_MAGIC
  /\ drain 2 2 [] (one_item_store 0)
     = Ok ([sample_row 0], set_readpos 36 (one_item_store 0)).
Proof.
  split; [vm_compute; reflexivity|].
  split; [discriminate|]. vm_compute. reflexivity.
Qed.

(** ** Sessions and writers *)


Lemma call_frame (fuel : nat) (user_fctx : option logged_data_ctx)
  (h : LoggingShmemHdr) (r : srf_return) (h' : LoggingShmemHdr) :
  get_logged_data fuel user_fctx h = Ok (r, h') ->
  data h' = data h /\ wraparound h' = wraparound h.
Proof.
  unfold get_logged_data. intros H.
  destruct user_fctx as [c|]; cbn [bind] in H.
  - apply loop_frame in H. now destruct H as (Hd & _ & _ & Hw & _).
  - unfold first_call_init, LWLockAcquire in H.
    destruct (hdr_lock h); [discriminate H|]. cbn [bind] in H.
    apply loop_frame in H. now destruct H as (Hd & _ & _ & Hw & _).
Qed.

(** The sessions of [drain_calls] are the sessions of [session_calls]
    in which the writers leave the arena and the flag alone. *)
Lemma drain_calls_session (fuel : nat) (calls : nat) :
  forall (ps : producers) (user_fctx : option logged_data_ctx)
         (h : LoggingShmemHdr),
    drain_calls calls fuel ps user_fctx h
    = session_calls calls fuel
        (map (endpos_step (data h) (wraparound h)) ps) user_fctx h.
Proof.
  induction calls as [|calls IH]; intros ps user_fctx h; [reflexivity|].
  cbn [drain_calls session_calls].
  destruct (get_logged_data fuel user_fctx h) as [[r h1]| | | |] eqn:E;
    cbn [bind]; try reflexivity.
  destruct r as [c row|]; [|reflexivity].
  destruct (call_frame _ _ _ _ _ E) as [Hd Hw].
  rewrite IH.
  destruct ps as [|[v|] ps]; cbn [map hd tl producer_move writer_move endpos_step];
    try reflexivity.
  - cbn [data wraparound set_endpos]. rewrite Hd, Hw.
    destruct h1 as [d e r b l w]. cbn in Hd, Hw. subst d w. reflexivity.
  - now rewrite Hd, Hw.
Qed.







(** ** The error levels *)

Example errlevel_examples :
  errlevel_in example_wordlist "error" = Ok 20
  /\ errlevel_in example_wordlist "Error" = Elog UnknownLevel
  /\ errlevel_in example_wordlist EmptyString = Elog EmptyName
  /\ errlevel_out example_wordlist 19 = Ok "warning"%string
  /\ errlevel_out example_wordlist 16 = Elog InvalidLevel.
Proof. repeat split. Qed.

Lemma get_errlevel_name_loop_scan (c : Z) (back : list ErrorLevel) :
  forall front : list ErrorLevel,
    get_errlevel_name_loop (front ++ back)
      (seq (length front) (length back)) c
    = scan_levels back c.
Proof.
  induction back as [|el back IH]; intros front; [reflexivity|].
  cbn [length seq get_errlevel_name_loop scan_levels].
  rewrite nth_error_app2, Nat.sub_diag by lia. cbn [nth_error].
  specialize (IH (front ++ [el])).
  rewrite <- app_assoc, length_app, Nat.add_1_r in IH. cbn [app] in IH.
  rewrite IH. reflexivity.
Qed.

Lemma get_errlevel_name_scan (wl : list ErrorLevel) (c : Z) :
  length wl = S MAX_HASH_VALUE ->
  get_errlevel_name wl c = scan_levels wl c.
Proof.
  intros Hlen. unfold get_errlevel_name. rewrite <- Hlen.
  apply (get_errlevel_name_loop_scan c wl []).
Qed.

Lemma scan_levels_none (l : list ErrorLevel) (c : Z) :
  (forall el, In el l -> text el = None \/ code el <> c) ->
  scan_levels l c = Elog InvalidLevel.
Proof.
  induction l as [|el l IH]; intros H; [reflexivity|].
  cbn [scan_levels].
  destruct (H el (or_introl eq_refl)) as [Ht|Hc].
  - rewrite Ht. apply IH. intros el' Hin. apply H. now right.
  - apply Z.eqb_neq in Hc. rewrite Hc.
    destruct (text el); apply IH; intros el' Hin; apply H; now right.
Qed.

Lemma scan_levels_some (l : list ErrorLevel) (c : Z) :
  (exists el, In el l /\ text el <> None /\ code el = c) ->
  exists el t,
    In el l /\ text el = Some t /\ code el = c /\ scan_levels l c = Ok t.
Proof.
  induction l as [|el l IH]; intros (el0 & Hin & Ht & Hc); [destruct Hin|].
  cbn [scan_levels].
  destruct (text el) as [t|] eqn:Et; [destruct (code el =? c) eqn:Ec|].
  - apply Z.eqb_eq in Ec. exists el, t. repeat split; auto. now left.
  - destruct Hin as [<-|Hin]; [apply Z.eqb_neq in Ec; contradiction|].
    destruct IH as (el1 & t1 & Hin1 & H1); [now exists el0|].
    exists el1, t1. split; [now right|exact H1].
  - destruct Hin as [<-|Hin]; [contradiction|].
    destruct IH as (el1 & t1 & Hin1 & H1); [now exists el0|].
    exists el1, t1. split; [now right|exact H1].
Qed.

Lemma get_errlevel_some (wl : list ErrorLevel) (str : string) (len : Z)
  (el : ErrorLevel) :
  get_errlevel wl str len = Some el -> In el wl /\ text el = Some str.
Proof.
  unfold get_errlevel. intros H. apply find_some in H.
  destruct H as [Hin Ht]. split; [exact Hin|].
  destruct (text el) as [t|]; [|discriminate Ht].
  apply String.eqb_eq in Ht. now subst.
Qed.

Lemma get_errlevel_none (wl : list ErrorLevel) (str : string) (len : Z) :
  get_errlevel wl str len = None ->
  forall el, In el wl -> text el <> Some str.
Proof.
  unfold get_errlevel. intros H el Hin Ht.
  pose proof (find_none _ _ H el Hin) as Hf. cbn beta in Hf.
  rewrite Ht, String.eqb_refl in Hf. discriminate Hf.
Qed.

Lemma strlen_int (str : string) :
  str <> EmptyString -> strlen str <= MaxAllocSize ->
  (to_int32 (strlen str) =? 0) = false.
Proof.
  intros Hne Hmax. unfold MaxAllocSize in Hmax.
  assert (Hpos : 0 < strlen str).
  { unfold strlen. destruct str; [contradiction|]. cbn [String.length]. lia. }
  rewrite to_int32_small by (unfold is_int32; lia).
  apply Z.eqb_neq. lia.
Qed.

Lemma errlevel_in_known (wl : list ErrorLevel) (str : string) :
  str <> EmptyString -> strlen str <= MaxAllocSize ->
  (exists el, In el wl /\ text el = Some str) ->
  exists el,
    In el wl /\ text el = Some str /\ errlevel_in wl str = Ok (code el).
Proof.
  intros Hne Hmax (el0 & Hin0 & Ht0). unfold errlevel_in. cbv zeta.
  rewrite strlen_int by assumption.
  destruct (get_errlevel wl str (to_int32 (strlen str))) as [el|] eqn:E.
  - apply get_errlevel_some in E. destruct E as [Hin Ht]. now exists el.
  - exfalso. exact (get_errlevel_none _ _ _ E el0 Hin0 Ht0).
Qed.

Lemma errlevel_out_named (wl : list ErrorLevel) (c : Z) :
  length wl = S MAX_HASH_VALUE ->
  (exists el, In el wl /\ text el <> None /\ code el = c) ->
  exists el t,
    In el wl /\ text el = Some t /\ code el = c /\ errlevel_out wl c = Ok t.
Proof.
  intros Hlen H. unfold errlevel_out.
  rewrite get_errlevel_name_scan by exact Hlen. now apply scan_levels_some.
Qed.

(** C7.  [errlevel_in] raises "Empty status name" for a string of
    length 0, raises "Unknown level name" for another string that is
    the name of no entry of the table, and otherwise returns the code of
    an entry whose name is the string, compared exactly.
    [errlevel_out] raises "Invalid error level name" when no named entry
    of the table has the code, and otherwise returns the name of an
    entry that has it. *)
Theorem errlevel_text_io (wl : list ErrorLevel) :
  length wl = S MAX_HASH_VALUE ->
  (forall str, String.length str = 0%nat ->
               errlevel_in wl str = Elog EmptyName)
  /\ (forall str,
        str <> EmptyString -> strlen str <= MaxAllocSize ->
        (forall el, In el wl -> text el <> Some str) ->
        errlevel_in wl str = Elog UnknownLevel)
  /\ (forall str,
        str <> EmptyString -> strlen str <= MaxAllocSize ->
        (exists el, In el wl /\ text el = Some str) ->
        exists el,
          In el wl /\ text el = Some str
          /\ errlevel_in wl str = Ok (code el))
  /\ (forall c,
        (forall el, In el wl -> text el = None \/ code el <> c) ->
        errlevel_out wl c = Elog InvalidLevel)
  /\ (forall c,
        (exists el, In el wl /\ text el <> None /\ code el = c) ->
        exists el t,
          In el wl /\ text el = Some t /\ code el = c
          /\ errlevel_out wl c = Ok t).
Proof.
  intros Hlen. split; [|split; [|split; [|split]]].
  - intros str H0. unfold errlevel_in, strlen. now rewrite H0.
  - intros str Hne Hmax Hnone. unfold errlevel_in. cbv zeta.
    rewrite strlen_int by assumption.
    destruct (get_errlevel wl str (to_int32 (strlen str))) as [el|] eqn:E;
      [|reflexivity].
    apply get_errlevel_some in E. destruct E as [Hin Ht].
    now apply Hnone in Hin.
  - intros str Hne Hmax H. now apply errlevel_in_known.
  - intros c H. unfold errlevel_out.
    rewrite get_errlevel_name_scan by exact Hlen. now apply scan_levels_none.
  - intros c H. now apply errlevel_out_named.
Qed.

Lemma errlevel_text_io_witness :
  length example_wordlist = S MAX_HASH_VALUE
  /\ errlevel_in example_wordlist EmptyString = Elog EmptyName
  /\ errlevel_in example_wordlist "Error" = Elog UnknownLevel
  /\ (exists el,
        In el example_wordlist /\ text el = Some "error"%string
        /\ errlevel_in example_wordlist "error" = Ok (code el))
  /\ errlevel_out example_wordlist 16 = Elog InvalidLevel
  /\ (exists el t,
        In el example_wordlist /\ text el = Some t /\ code el = 19
        /\ errlevel_out example_wordlist 19 = Ok t).
Proof.
  destruct (errlevel_text_io example_wordlist eq_refl)
    as (Hempty & Hunknown & Hknown & Hinvalid & Hname).
  split; [reflexivity|]. split; [apply Hempty; reflexivity|]. split.
  { apply Hunknown; [discriminate|now vm_compute|].
    intros el Hin. cbn in Hin.
    repeat (destruct Hin as [<-|Hin]; [discriminate|]). destruct Hin. }
  split.
  { apply Hknown; [discriminate|now vm_compute|].
    exists (named "error" 20). split; [|reflexivity].
    cbn. do 5 right. now left. }
  split.
  { apply Hinvalid. intros el Hin. cbn in Hin.
    repeat (destruct Hin as [<-|Hin];
            [first [now left|right; discriminate]|]).
    destruct Hin. }
  apply Hname. exists (named "warning" 19). split; [|split].
  - cbn. do 7 right. now left.
  - discriminate.
  - reflexivity.
Defined.

(** C8.  On a table as [registry_ok] describes it, every name [n] of
    the table is accepted by [errlevel_in], and [errlevel_out] maps the
    code that comes out back to [n]. *)
Theorem errlevel_round_trip (wl : list ErrorLevel) (el : ErrorLevel)
  (n : string) :
  registry_ok wl ->
  In el wl -> text el = Some n ->
  exists c, errlevel_in wl n = Ok c /\ errlevel_out wl c = Ok n.
Proof.
  intros (Hlen & Hnames & Hcodes) Hin Ht.
  destruct (Hnames _ _ Hin Ht) as [Hpos Hmax].
  assert (Hne : n <> EmptyString).
  { intros ->. unfold strlen in Hpos. cbn in Hpos. lia. }
  destruct (errlevel_in_known wl n Hne Hmax) as (el1 & Hin1 & Ht1 & Hcode);
    [now exists el|].
  exists (code el1). split; [exact Hcode|].
  destruct (errlevel_out_named wl (code el1) Hlen)
    as (el2 & t2 & Hin2 & Ht2 & Hc2 & Hout).
  { exists el1. repeat split; [exact Hin1|now rewrite Ht1]. }
  rewrite Hout. f_equal.
  exact (Hcodes _ _ _ _ Hin2 Hin1 Ht2 Ht1 Hc2).
Qed.

Lemma example_wordlist_ok : registry_ok example_wordlist.
Proof.
  split; [reflexivity|]. split.
  - intros el t Hin Ht. cbn in Hin.
    repeat (destruct Hin as [<-|Hin];
            [first [discriminate Ht
                   |injection Ht as <-; now vm_compute]|]).
    destruct Hin.
  - intros e1 e2 t1 t2 Hin1 Hin2 Ht1 Ht2 Hc. cbn in Hin1.
    repeat (destruct Hin1 as [<-|Hin1];
            [first [discriminate Ht1
                   |injection Ht1 as <-; cbn in Hin2;
                    repeat (destruct Hin2 as [<-|Hin2];
                            [first [discriminate Ht2
                                   |discriminate Hc
                                   |injection Ht2 as <-; reflexivity]|]);
                    destruct Hin2]|]).
    destruct Hin1.
Defined.

Lemma errlevel_round_trip_witness :
  registry_ok example_wordlist
  /\ In (named "notice" 18) example_wordlist
  /\ exists c,
      errlevel_in example_wordlist "notice" = Ok c
      /\ errlevel_out example_wordlist c = Ok "notice"%string.
Proof.
  assert (Hin : In (named "notice" 18) example_wordlist)
    by (cbn; do 6 right; now left).
  split; [exact example_wordlist_ok|]. split; [exact Hin|].
  exact (errlevel_round_trip example_wordlist (named "notice" 18) "notice"
           example_wordlist_ok Hin eq_refl).
Defined.

(** * Further properties of the reader *)

(** ** What a call leaves alone *)

(** X1.  A call of [get_logged_data] that returns has written neither
    the arena, nor [endpos], nor [buffer_size], nor the [wraparound]
    flag of the shared header: it only moves [readpos] and takes or
    releases the lock. *)
Theorem get_logged_data_read_only (fuel : nat)
  (user_fctx : option logged_data_ctx) (h : LoggingShmemHdr)
  (r : srf_return) (h' : LoggingShmemHdr) :
  get_logged_data fuel user_fctx h = Ok (r, h') ->
  data h' = data h /\ endpos h' = endpos h
  /\ buffer_size h' = buffer_size h /\ wraparound h' = wraparound h.
Proof.
  unfold get_logged_data. intros H.
  destruct user_fctx as [c|]; cbn [bind] in H.
  - destruct (loop_frame _ _ _ _ _ H) as (Hd & He & Hb & Hw & _).
    now repeat split.
  - unfold first_call_init, LWLockAcquire in H.
    destruct (hdr_lock h); [discriminate H|]. cbn [bind] in H.
    destruct (loop_frame _ _ _ _ _ H) as (Hd & He & Hb & Hw & _).
    now repeat split.
Qed.

Lemma get_logged_data_read_only_witness :
  get_logged_data 2 (Some straddling_ctx) straddling_store
  = Ok (SRF_RETURN_NEXT (mkCtx 4 32 false) (sample_row 32),
        set_readpos 4 straddling_store)
  /\ data (set_readpos 4 straddling_store) = data straddling_store
  /\ endpos (set_readpos 4 straddling_store) = endpos straddling_store
  /\ buffer_size (set_readpos 4 straddling_store)
     = buffer_size straddling_store
  /\ wraparound (set_readpos 4 straddling_store)
     = wraparound straddling_store.
Proof.
  split; [exact straddling_call|].
  exact (get_logged_data_read_only 2 (Some straddling_ctx) straddling_store
           _ _ straddling_call).
Defined.

(** ** The lock of a session *)

(** X2.  A call that starts a session, or that runs with the lock
    held, keeps the lock when it returns a row, so that a reset and
    the first call of another session both wait; the call that finds
    nothing left releases it. *)
Theorem session_keeps_lock (fuel : nat) (user_fctx : option logged_data_ctx)
  (h : LoggingShmemHdr) (r : srf_return) (h' : LoggingShmemHdr) :
  user_fctx = None \/ hdr_lock h = true ->
  get_logged_data fuel user_fctx h = Ok (r, h') ->
  match r with
  | SRF_RETURN_NEXT _ _ =>
      hdr_lock h' = true
      /\ (forall f ps, reset_counters_in_shmem f ps h' = Blocked)
      /\ (forall f, get_logged_data f None h' = Blocked)
  | SRF_RETURN_DONE => hdr_lock h' = false
  end.
Proof.
  intros Hstart H.
  assert (Hlock : hdr_lock h' = match r with
                                | SRF_RETURN_NEXT _ _ => true
                                | SRF_RETURN_DONE => false
                                end).
  { unfold get_logged_data in H. destruct user_fctx as [c|]; cbn [bind] in H.
    - destruct Hstart as [Hn|Hl]; [discriminate Hn|].
      destruct (loop_frame _ _ _ _ _ H) as (_ & _ & _ & _ & Hk).
      rewrite Hk, Hl. now destruct r.
    - unfold first_call_init, LWLockAcquire in H.
      destruct (hdr_lock h); [discriminate H|]. cbn [bind] in H.
      destruct (loop_frame _ _ _ _ _ H) as (_ & _ & _ & _ & Hk).
      rewrite Hk. now destruct r. }
  destruct r as [c' row|]; [|exact Hlock].
  split; [exact Hlock|]. split.
  - intros f ps. unfold reset_counters_in_shmem, LWLockAcquire.
    now rewrite Hlock.
  - intros f. unfold get_logged_data, first_call_init, LWLockAcquire.
    now rewrite Hlock.
Qed.

Lemma session_keeps_lock_witness :
  get_logged_data 1 None (one_item_store PG_ITEM_MAGIC)
  = Ok (SRF_RETURN_NEXT (mkCtx 36 0 false) (sample_row 0),
        set_readpos 36 (set_lock true (one_item_store PG_ITEM_MAGIC)))
  /\ reset_counters_in_shmem 2 []
       (set_readpos 36 (set_lock true (one_item_store PG_ITEM_MAGIC)))
     = Blocked
  /\ get_logged_data 1 None
       (set_readpos 36 (set_lock true (one_item_store PG_ITEM_MAGIC)))
     = Blocked.
Proof.
  assert (Hcall : get_logged_data 1 None (one_item_store PG_ITEM_MAGIC)
                  = Ok (SRF_RETURN_NEXT (mkCtx 36 0 false) (sample_row 0),
                        set_readpos 36
                          (set_lock true (one_item_store PG_ITEM_MAGIC))))
    by (vm_compute; reflexivity).
  split; [exact Hcall|].
  destruct (session_keeps_lock 1 None (one_item_store PG_ITEM_MAGIC) _ _
              (or_introl eq_refl) Hcall) as (_ & Hreset & Hfirst).
  split; [apply Hreset|apply Hfirst].
Defined.

(** X3.  The reader never looks at the [wraparound] flag of the shared
    header: changing it changes nothing in what a call returns. *)
Theorem reader_ignores_shared_flag (fuel : nat)
  (user_fctx : option logged_data_ctx) (w : bool) (h : LoggingShmemHdr) :
  get_logged_data fuel user_fctx (set_wraparound w h)
  = on_hdr (set_wraparound w) (get_logged_data fuel user_fctx h).
Proof.
  assert (Hnext : forall h c,
             next_item (set_wraparound w h) c
             = on_hdr (set_wraparound w) (next_item h c)).
  { intros h0 c.
    unfold next_item, on_hdr, alloc_item, copy_texts, two_parts, taillen_of.
    cbn [data readpos buffer_size set_wraparound set_readpos].
    destruct (load_int (data h0) (readpos h0 + off_totallen)) as [tl| | | |];
      cbn [bind]; try reflexivity.
    destruct (palloc0 (to_size_t tl)) as [blk| | | |];
      cbn [bind]; try reflexivity.
    destruct (len blk <? ITEM_HDR_LEN); cbn [bind]; try reflexivity.
    destruct (copy_header (data h0) (readpos h0)
                (skipn (Z.to_nat ITEM_HDR_LEN) blk))
      as [item| | | |]; cbn [bind]; try reflexivity.
    destruct (to_uint32 (readpos h0 + totallen item)
              >=? to_uint32 (buffer_size h0));
      case_binds. }
  assert (Hloop : forall fuel h c,
             get_logged_data_loop fuel (set_wraparound w h) c
             = on_hdr (set_wraparound w) (get_logged_data_loop fuel h c)).
  { intros f. induction f as [|f IH]; intros h0 c; [reflexivity|].
    cbn [get_logged_data_loop].
    change (loop_cond (set_wraparound w h0) c) with (loop_cond h0 c).
    change (header_past_end (set_wraparound w h0))
      with (header_past_end h0).
    destruct (loop_cond h0 c); [|reflexivity].
    destruct (header_past_end h0); [apply (IH (set_readpos 0 h0))|].
    apply Hnext. }
  unfold get_logged_data. destruct user_fctx as [c|]; cbn [bind].
  - apply Hloop.
  - unfold first_call_init, LWLockAcquire.
    change (hdr_lock (set_wraparound w h)) with (hdr_lock h).
    destruct (hdr_lock h); [reflexivity|]. cbn [bind].
    apply (Hloop fuel (set_lock true h)).
Qed.

(** ** The rounds of the loop *)

Lemma bind_settled {A B : Type} (m : result A) (k : A -> result B) :
  settled m -> (forall a, settled (k a)) -> settled (bind m k).
Proof. destruct m; cbn; auto. Qed.

Lemma load_settled (mem : list byte) (off n : Z) : settled (load mem off n).
Proof.
  unfold load.
  now destruct ((0 <=? off) && (0 <=? n) && (off + n <=? len mem)).
Qed.

Lemma memcpy_settled (dst : list byte) (doff : Z) (src : list byte) :
  settled (memcpy dst doff src).
Proof.
  unfold memcpy. now destruct ((0 <=? doff) && (doff + len src <=? len dst)).
Qed.

Lemma load_int_settled (mem : list byte) (off : Z) :
  settled (load_int mem off).
Proof.
  unfold load_int. apply bind_settled; [apply load_settled|now intros].
Qed.

Lemma load_char_settled (mem : list byte) (off : Z) :
  settled (load_char mem off).
Proof.
  unfold load_char. apply bind_settled; [apply load_settled|now intros].
Qed.

Lemma until_nul_settled (bs : list byte) : settled (until_nul bs).
Proof.
  induction bs as [|b bs IH]; cbn; [exact I|].
  destruct (Byte.eqb b x00); [exact I|].
  apply bind_settled; [exact IH|now intros].
Qed.

Lemma cstring_at_settled (blk : list byte) (off : Z) :
  settled (cstring_at blk off).
Proof.
  unfold cstring_at. destruct ((0 <=? off) && (off <=? len blk));
    [apply until_nul_settled|exact I].
Qed.

Ltac settle :=
  repeat first
    [ exact I
    | apply load_settled | apply memcpy_settled | apply load_int_settled
    | apply load_char_settled | apply cstring_at_settled
    | apply bind_settled; [|intros]
    | match goal with
      | |- settled (if ?b then _ else _) => destruct b
      | |- settled (match ?p with (_, _) => _ end) => destruct p
      end ].

Lemma next_item_settled (h : LoggingShmemHdr) (c : logged_data_ctx) :
  settled (next_item h c).
Proof.
  unfold next_item, alloc_item, copy_header, copy_texts, form_tuple, palloc0.
  cbv zeta. settle.
Qed.

(** X4.  When the arena can hold a header, the loop of a call goes
    round at most twice: with fuel for two rounds the call comes back
    (with a row, with "done", with an ERROR or with a fault), and more
    fuel changes nothing. *)
Theorem loop_two_rounds (fuel : nat) (h : LoggingShmemHdr)
  (c : logged_data_ctx) :
  is_uint32 (readpos h) ->
  ITEM_HDR_LEN <= buffer_size h < 2 ^ 31 ->
  settled (get_logged_data_loop 2 h c)
  /\ get_logged_data_loop (S (S fuel)) h c = get_logged_data_loop 2 h c.
Proof.
  intros Hr Hb.
  assert (H0 : header_past_end (set_readpos 0 h) = false).
  { rewrite header_past_end_spec.
    - cbn [readpos buffer_size set_readpos]. rewrite Z.gtb_ltb.
      apply Z.ltb_ge. lia.
    - cbn. unfold is_uint32. lia.
    - unfold ITEM_HDR_LEN in Hb. cbn. lia. }
  cbn [get_logged_data_loop].
  destruct (loop_cond h c); [|now split].
  destruct (header_past_end h); [|split; [apply next_item_settled|reflexivity]].
  destruct fuel as [|fuel]; cbn [get_logged_data_loop];
    (destruct (loop_cond (set_readpos 0 h) (set_ctx_wraparound false c));
     [|now split]);
    rewrite H0; (split; [apply next_item_settled|reflexivity]).
Qed.

Lemma loop_two_rounds_witness :
  is_uint32 (readpos rewinding_store)
  /\ ITEM_HDR_LEN <= buffer_size rewinding_store < 2 ^ 31
  /\ get_logged_data_loop 1 rewinding_store rewinding_ctx = OutOfFuel
  /\ settled (get_logged_data_loop 2 rewinding_store rewinding_ctx)
  /\ get_logged_data_loop 7 rewinding_store rewinding_ctx
     = get_logged_data_loop 2 rewinding_store rewinding_ctx.
Proof.
  assert (H1 : is_uint32 (readpos rewinding_store)) by now vm_compute.
  assert (H2 : ITEM_HDR_LEN <= buffer_size rewinding_store < 2 ^ 31)
    by now vm_compute.
  split; [exact H1|]. split; [exact H2|]. split; [reflexivity|].
  exact (loop_two_rounds 5 rewinding_store rewinding_ctx H1 H2).
Defined.

(** X5.  When the arena is smaller than a header and the session has
    something to read ([until] above 0), the loop never ends: every
    round finds no room for a header, sets [readpos] to 0 and finds the
    loop condition true again. *)
Theorem loop_spins_on_tiny_arena (fuel : nat) :
  forall (h : LoggingShmemHdr) (c : logged_data_ctx),
    is_uint32 (readpos h) ->
    0 <= buffer_size h < ITEM_HDR_LEN ->
    loop_cond h c = true ->
    0 < until c ->
    get_logged_data_loop fuel h c = OutOfFuel.
Proof.
  induction fuel as [|fuel IH]; intros h c Hr Hb Hc Hu; [reflexivity|].
  assert (Hp : header_past_end h = true).
  { unfold ITEM_HDR_LEN, is_uint32 in *.
    rewrite header_past_end_spec by (unfold is_uint32; lia).
    apply Z.gtb_lt. unfold ITEM_HDR_LEN. lia. }
  rewrite loop_wrap by assumption. apply IH.
  - cbn. unfold is_uint32. lia.
  - exact Hb.
  - unfold loop_cond. cbn.
    replace (0 <? until c) with true by (symmetry; now apply Z.ltb_lt).
    reflexivity.
  - exact Hu.
Qed.

Lemma loop_spins_on_tiny_arena_witness :
  is_uint32 (readpos tiny_store)
  /\ 0 <= buffer_size tiny_store < ITEM_HDR_LEN
  /\ loop_cond tiny_store tiny_ctx = true
  /\ 0 < until tiny_ctx
  /\ get_logged_data_loop 1000 tiny_store tiny_ctx = OutOfFuel.
Proof.
  assert (H1 : is_uint32 (readpos tiny_store)) by now vm_compute.
  assert (H2 : 0 <= buffer_size tiny_store < ITEM_HDR_LEN) by now vm_compute.
  split; [exact H1|]. split; [exact H2|]. split; [reflexivity|].
  split; [reflexivity|].
  exact (loop_spins_on_tiny_arena 1000 tiny_store tiny_ctx H1 H2
           eq_refl eq_refl).
Defined.

(** ** Sessions on an empty store *)

(** X6.  When [readpos] equals [endpos] and the lock is free, a session
    returns no row at its first call and leaves the store as it found
    it, wherever the two cursors are. *)
Theorem drain_empty_store (calls fuel : nat) (ps : producers)
  (h : LoggingShmemHdr) :
  readpos h = endpos h ->
  hdr_lock h = false ->
  drain (S calls) (S fuel) ps h = Ok ([], h).
Proof.
  intros Heq Hlock. unfold drain. cbn [drain_calls].
  unfold get_logged_data, first_call_init, LWLockAcquire.
  rewrite Hlock. cbn [bind get_logged_data_loop].
  unfold loop_cond. cbn [until ctx_wraparound readpos endpos set_lock].
  rewrite Heq, Z.ltb_irrefl. cbn.
  destruct h as [d e r b l w]. cbn in Hlock. now subst l.
Qed.

Lemma drain_empty_store_witness :
  readpos (mkHdr (zeros 64) 40 40 64 false true) = 40
  /\ drain 1 1 [] (mkHdr (zeros 64) 40 40 64 false true)
     = Ok ([], mkHdr (zeros 64) 40 40 64 false true).
Proof.
  split; [reflexivity|].
  exact (drain_empty_store 0 0 [] (mkHdr (zeros 64) 40 40 64 false true)
           eq_refl eq_refl).
Defined.

(** ** More on the error levels *)

Lemma scan_levels_ok (l : list ErrorLevel) (c : Z) (t : string) :
  scan_levels l c = Ok t ->
  exists el, In el l /\ text el = Some t /\ code el = c.
Proof.
  induction l as [|el l IH]; cbn [scan_levels]; intros H; [discriminate H|].
  destruct (text el) as [t'|] eqn:Et; [destruct (code el =? c) eqn:Ec|].
  - injection H as ->. apply Z.eqb_eq in Ec. exists el.
    split; [now left|]. now split.
  - destruct (IH H) as (el' & Hin & H'). exists el'. split; [now right|exact H'].
  - destruct (IH H) as (el' & Hin & H'). exists el'. split; [now right|exact H'].
Qed.

Lemma errlevel_in_ok (wl : list ErrorLevel) (str : string) (c : Z) :
  errlevel_in wl str = Ok c ->
  exists el, In el wl /\ text el = Some str /\ code el = c.
Proof.
  unfold errlevel_in. cbv zeta.
  destruct (to_int32 (strlen str) =? 0); [discriminate|].
  destruct (get_errlevel wl str (to_int32 (strlen str))) as [el|] eqn:E;
    [|discriminate].
  intros H. injection H as <-. apply get_errlevel_some in E.
  exists el. destruct E as [Hin Ht]. now repeat split.
Qed.

(** X7.  Every code that [errlevel_in] returns is one that
    [errlevel_out] can print: the output function does not raise
    "Invalid error level name" on a value the input function has
    produced. *)
Theorem errlevel_in_code_prints (wl : list ErrorLevel) (str : string)
  (c : Z) :
  length wl = S MAX_HASH_VALUE ->
  errlevel_in wl str = Ok c ->
  exists t, errlevel_out wl c = Ok t.
Proof.
  intros Hlen H. apply errlevel_in_ok in H.
  destruct H as (el & Hin & Ht & Hc).
  destruct (errlevel_out_named wl c Hlen) as (el' & t & _ & _ & _ & Hout).
  - exists el. split; [exact Hin|]. split; [now rewrite Ht|exact Hc].
  - now exists t.
Qed.

Lemma errlevel_in_code_prints_witness :
  length example_wordlist = S MAX_HASH_VALUE
  /\ errlevel_in example_wordlist "panic" = Ok 22
  /\ exists t, errlevel_out example_wordlist 22 = Ok t.
Proof.
  split; [reflexivity|]. split; [reflexivity|].
  exact (errlevel_in_code_prints example_wordlist "panic" 22
           eq_refl eq_refl).
Defined.

(** X8.  On a table in which a name has one code, what [errlevel_out]
    prints for a code is read back by [errlevel_in] as that code. *)
Theorem errlevel_out_in (wl : list ErrorLevel) (c : Z) (t : string) :
  length wl = S MAX_HASH_VALUE ->
  (forall el n, In el wl -> text el = Some n ->
                0 < strlen n <= MaxAllocSize) ->
  names_unique wl ->
  errlevel_out wl c = Ok t ->
  errlevel_in wl t = Ok c.
Proof.
  intros Hlen Hnames Huniq Hout. unfold errlevel_out in Hout.
  rewrite get_errlevel_name_scan in Hout by exact Hlen.
  apply scan_levels_ok in Hout. destruct Hout as (el & Hin & Ht & Hc).
  destruct (Hnames _ _ Hin Ht) as [Hpos Hmax].
  assert (Hne : t <> EmptyString).
  { intros ->. unfold strlen in Hpos. cbn in Hpos. lia. }
  destruct (errlevel_in_known wl t Hne Hmax) as (el1 & Hin1 & Ht1 & Hcode);
    [now exists el|].
  rewrite Hcode. f_equal. rewrite <- Hc.
  exact (Huniq _ _ _ Hin1 Hin Ht1 Ht).
Qed.

Lemma example_wordlist_names :
  (forall el n, In el example_wordlist -> text el = Some n ->
                0 < strlen n <= MaxAllocSize)
  /\ names_unique example_wordlist.
Proof.
  split.
  - exact (proj1 (proj2 example_wordlist_ok)).
  - intros e1 e2 t Hin1 Hin2 Ht1 Ht2. cbn in Hin1.
    repeat (destruct Hin1 as [<-|Hin1];
            [first [discriminate Ht1
                   |injection Ht1 as <-; cbn in Hin2;
                    repeat (destruct Hin2 as [<-|Hin2];
                            [first [discriminate Ht2|reflexivity]|]);
                    destruct Hin2]|]).
    destruct Hin1.
Defined.

Lemma errlevel_out_in_witness :
  length example_wordlist = S MAX_HASH_VALUE
  /\ names_unique example_wordlist
  /\ errlevel_out example_wordlist 17 = Ok "info"%string
  /\ errlevel_in example_wordlist "info" = Ok 17.
Proof.
  split; [reflexivity|]. split; [exact (proj2 example_wordlist_names)|].
  split; [reflexivity|].
  exact (errlevel_out_in example_wordlist 17 "info" eq_refl
           (proj1 example_wordlist_names) (proj2 example_wordlist_names)
           eq_refl).
Defined.

(** ** One call on a record *)

(** X9.  One call on a record that lies at [readpos], in one piece or
    round the end of the arena (its header in one piece), returns the
    level, the errno and the texts of the event the record was made of,
    with [readpos] as position; it leaves [readpos] after the record,
    modulo the size of the arena, and clears the flag of the session
    when the record reaches the end of the arena. *)
Theorem call_decodes_event (fuel : nat) (h : LoggingShmemHdr)
  (c : logged_data_ctx) (ev : log_event) :
  len (data h) = buffer_size h ->
  buffer_size h < 2 ^ 31 ->
  0 <= readpos h ->
  readpos h + ITEM_HDR_LEN <= buffer_size h ->
  event_ok ev ->
  len (event_bytes ev) <= buffer_size h ->
  ring_read (data h) (readpos h) (len (event_bytes ev)) = event_bytes ev ->
  loop_cond h c = true ->
  get_logged_data (S fuel) (Some c) h
  = Ok (SRF_RETURN_NEXT
          (if readpos h + len (event_bytes ev) >=? buffer_size h
           then set_ctx_wraparound false c else c)
          (event_row ev (readpos h)),
        set_readpos
          (ring_next (buffer_size h) (readpos h) (len (event_bytes ev))) h).
Proof.
  intros Hlen Hbs Hrp Hhdr Hev Hfit Hring Hc.
  rewrite (call_next_event fuel h c ev) by assumption.
  now apply next_item_event.
Qed.

Lemma call_decodes_event_witness :
  event_ok sample_event
  /\ ring_read (data straddling_store) (readpos straddling_store)
       (len (event_bytes sample_event))
     = event_bytes sample_event
  /\ loop_cond straddling_store straddling_ctx = true
  /\ get_logged_data 1 (Some straddling_ctx) straddling_store
     = Ok (SRF_RETURN_NEXT (set_ctx_wraparound false straddling_ctx)
             (event_row sample_event 32),
           set_readpos 4 straddling_store).
Proof.
  assert (Hring : ring_read (data straddling_store)
                    (readpos straddling_store)
                    (len (event_bytes sample_event))
                  = event_bytes sample_event)
    by (vm_compute; reflexivity).
  split; [exact (proj1 sample_event_ok)|]. split; [exact Hring|].
  split; [reflexivity|].
  exact (call_decodes_event 0 straddling_store straddling_ctx sample_event
           eq_refl eq_refl ltac:(now vm_compute) ltac:(now vm_compute)
           (proj1 sample_event_ok) ltac:(now vm_compute) Hring eq_refl).
Defined.

(** ** Decoding a sequence of records *)

(** The calls of a session after the context exists, on an arena that
    holds the records of [evs] from [readpos] on. *)
Lemma drain_calls_events (fuel : nat) (evs : list log_event) :
  forall (calls : nat) (h : LoggingShmemHdr) (c : logged_data_ctx),
    len (data h) = buffer_size h ->
    buffer_size h < 2 ^ 31 ->
    0 <= readpos h < buffer_size h ->
    Forall event_ok evs ->
    len (events_bytes evs) < buffer_size h ->
    until c
    = ring_next (buffer_size h) (readpos h) (len (events_bytes evs)) ->
    ctx_wraparound c
    = (buffer_size h <=? readpos h + len (events_bytes evs)) ->
    ring_read (data h) (readpos h) (len (events_bytes evs))
    = events_bytes evs ->
    headers_fit (buffer_size h) (readpos h) evs ->
    (length evs < calls)%nat ->
    drain_calls calls (S fuel) [] (Some c) h
    = Ok (event_rows (buffer_size h) (readpos h) evs,
          LWLockRelease (set_readpos (until c) h)).
Proof.
  induction evs as [|ev evs IH];
    intros calls h c Hlen Hbs Hrp Hok Htot Hu Hw Hring Hfit Hcalls.
  - destruct calls as [|calls]; [cbn in Hcalls; lia|].
    change (len (events_bytes [])) with 0 in *.
    unfold ring_next in Hu. rewrite Z.add_0_r, Z.mod_small in Hu by lia.
    rewrite Z.add_0_r in Hw.
    replace (buffer_size h <=? readpos h) with false in Hw
      by (symmetry; apply Z.leb_gt; lia).
    cbn [drain_calls get_logged_data bind].
    rewrite loop_done.
    + cbn [bind event_rows]. now rewrite Hu.
    + unfold loop_cond. now rewrite Hw, Hu, Z.ltb_irrefl.
  - destruct calls as [|calls]; [cbn in Hcalls; lia|].
    rewrite len_events_bytes_cons in *.
    pose proof (len_event_bytes_pos ev) as Hpos.
    pose proof (len_nonneg (events_bytes evs)) as Hrest.
    unfold ITEM_HDR_LEN in Hpos.
    destruct Hfit as [Hhdr Hfit]. inversion Hok as [|? ? Hev Hok']; subst.
    set (L := len (event_bytes ev)) in *.
    set (T := len (events_bytes evs)) in *.
    assert (Hcond : loop_cond h c = true).
    { unfold loop_cond. rewrite Hw, Hu. unfold ring_next.
      destruct (buffer_size h <=? readpos h + (L + T)) eqn:E; cbn [negb andb orb].
      - apply Z.leb_le in E. apply Z.gtb_lt.
        rewrite <- (Z.mod_unique (readpos h + (L + T)) (buffer_size h) 1
                      (readpos h + (L + T) - buffer_size h)) by lia.
        lia.
      - apply Z.leb_gt in E. rewrite Z.mod_small by lia.
        rewrite orb_false_r. apply Z.ltb_lt. lia. }
    assert (Hring1 : ring_read (data h) (readpos h) L = event_bytes ev).
    { pose proof (ring_read_slice (data h) (readpos h) (L + T) 0 L) as Hs.
      rewrite Z.add_0_r in Hs. cbn [Z.to_nat skipn] in Hs.
      rewrite <- Hs by lia. rewrite Hring. unfold events_bytes.
      cbn [map concat]. rewrite firstn_app.
      replace (Z.to_nat L - length (event_bytes ev))%nat with 0%nat
        by (unfold L, len; lia).
      rewrite firstn_all2 by (unfold L, len; lia).
      cbn [firstn]. apply app_nil_r. }
    assert (Hring2 : ring_read (data h)
                       (ring_next (buffer_size h) (readpos h) L) T
                     = events_bytes evs).
    { unfold ring_next. rewrite <- Hlen, ring_read_mod.
      rewrite <- (ring_read_slice (data h) (readpos h) (L + T) L T) by lia.
      rewrite Hring. unfold events_bytes at 1. cbn [map concat].
      rewrite skipn_app.
      replace (Z.to_nat L - length (event_bytes ev))%nat with 0%nat
        by (unfold L, len; lia).
      rewrite skipn_all2 by (unfold L, len; lia).
      cbn [skipn app]. apply firstn_all2. unfold T, len. lia. }
    cbn [drain_calls].
    rewrite (call_next_event fuel h c ev), (next_item_event h c ev);
      try assumption; try lia.
    cbn [bind hd tl producer_move event_rows]. fold L.
    set (c' := if readpos h + L >=? buffer_size h
               then set_ctx_wraparound false c else c).
    assert (Hnext : 0 <= ring_next (buffer_size h) (readpos h) L
                    < buffer_size h)
      by (unfold ring_next; apply Z.mod_pos_bound; lia).
    assert (Hu' : until c' = until c) by (unfold c'; now destruct (_ >=? _)).
    rewrite (IH calls
               (set_readpos (ring_next (buffer_size h) (readpos h) L) h) c');
      cbn [data readpos buffer_size set_readpos];
      try assumption; try (cbn in Hcalls; lia).
    + rewrite Hu'. reflexivity.
    + rewrite Hu', Hu. unfold ring_next.
      rewrite Zplus_mod_idemp_l. f_equal. lia.
    + unfold c', ring_next.
      destruct (readpos h + L >=? buffer_size h) eqn:E.
      * apply Z.geb_le in E. cbn [ctx_wraparound set_ctx_wraparound].
        symmetry. apply Z.leb_gt.
        rewrite <- (Z.mod_unique (readpos h + L) (buffer_size h) 1
                      (readpos h + L - buffer_size h)) by lia.
        lia.
      * assert (Hlt : readpos h + L < buffer_size h).
        { destruct (Z_lt_le_dec (readpos h + L) (buffer_size h));
            [assumption|].
          apply Z.geb_le in l. rewrite l in E. discriminate E. }
        rewrite Hw, Z.mod_small by lia. f_equal. lia.
Qed.

(** X10.  Let the arena hold, from [readpos] on and round its end if
    need be, the records of the events [evs], each header in one piece,
    the whole shorter than the arena, and let [endpos] be the offset
    after the last record.  Then a session returns exactly the tuples
    of [evs], in order, each with the offset of its record as position,
    and ends with [readpos] at [endpos] and the lock released; a second
    session right after it returns nothing. *)
Theorem drain_decodes_events (calls calls' fuel fuel' : nat)
  (h : LoggingShmemHdr) (evs : list log_event) :
  hdr_lock h = false ->
  len (data h) = buffer_size h ->
  buffer_size h < 2 ^ 31 ->
  0 <= readpos h < buffer_size h ->
  Forall event_ok evs ->
  len (events_bytes evs) < buffer_size h ->
  endpos h = ring_next (buffer_size h) (readpos h) (len (events_bytes evs)) ->
  ring_read (data h) (readpos h) (len (events_bytes evs))
  = events_bytes evs ->
  headers_fit (buffer_size h) (readpos h) evs ->
  (length evs < calls)%nat ->
  drain calls (S fuel) [] h
  = Ok (event_rows (buffer_size h) (readpos h) evs, set_readpos (endpos h) h)
  /\ drain (S calls') (S fuel') [] (set_readpos (endpos h) h)
     = Ok ([], set_readpos (endpos h) h).
Proof.
  intros Hlock Hlen Hbs Hrp Hok Htot He Hring Hfit Hcalls.
  pose proof (len_nonneg (events_bytes evs)) as Hnn.
  assert (Hend : set_lock false (set_readpos (endpos h) (set_lock true h))
                 = set_readpos (endpos h) h).
  { destruct h as [d e r b l w]. cbn in Hlock. now subst l. }
  split.
  - destruct calls as [|calls]; [lia|].
    unfold drain. cbn [drain_calls]. unfold get_logged_data at 1.
    unfold first_call_init, LWLockAcquire. rewrite Hlock. cbn [bind].
    change (let* (r, h1)
            := get_logged_data_loop (S fuel) (set_lock true h)
                 (mkCtx (endpos (set_lock true h)) (readpos (set_lock true h))
                    (endpos (set_lock true h) <? readpos (set_lock true h)))
            in match r with
               | SRF_RETURN_NEXT c row =>
                   let* (rows, h2)
                   := drain_calls calls (S fuel) (tl []) (Some c)
                        (producer_move (hd None []) h1)
                   in Ok (row :: rows, h2)
               | SRF_RETURN_DONE => Ok ([], h1)
               end)
      with (drain_calls (S calls) (S fuel) []
              (Some (mkCtx (endpos h) (readpos h) (endpos h <? readpos h)))
              (set_lock true h)).
    rewrite (drain_calls_events fuel evs);
      cbn [data readpos buffer_size set_lock until ctx_wraparound];
      try assumption.
    + unfold LWLockRelease. now rewrite Hend.
    + rewrite He. unfold ring_next.
      destruct (buffer_size h <=? readpos h + len (events_bytes evs)) eqn:E.
      * apply Z.leb_le in E. apply Z.ltb_lt.
        rewrite <- (Z.mod_unique (readpos h + len (events_bytes evs))
                      (buffer_size h) 1
                      (readpos h + len (events_bytes evs) - buffer_size h))
          by lia.
        lia.
      * apply Z.leb_gt in E. rewrite Z.mod_small by lia.
        apply Z.ltb_ge. lia.
  - unfold drain. cbn [drain_calls].
    unfold get_logged_data, first_call_init, LWLockAcquire.
    change (hdr_lock (set_readpos (endpos h) h)) with (hdr_lock h).
    rewrite Hlock. cbn [bind]. rewrite loop_done.
    + cbn [bind]. unfold LWLockRelease.
      change (set_lock true (set_readpos (endpos h) h))
        with (set_readpos (endpos h) (set_lock true h)).
      now rewrite Hend.
    + unfold loop_cond.
      cbn [until ctx_wraparound readpos endpos set_lock set_readpos].
      now rewrite Z.ltb_irrefl.
Qed.

Lemma drain_decodes_events_witness :
  Forall event_ok [sample_event; other_event]
  /\ headers_fit 128 60 [sample_event; other_event]
  /\ ring_read (data wrapped_store) 60 80
     = events_bytes [sample_event; other_event]
  /\ drain 3 1 [] wrapped_store
     = Ok ([event_row sample_event 60; event_row other_event 96],
           set_readpos 12 wrapped_store)
  /\ drain 1 1 [] (set_readpos 12 wrapped_store)
     = Ok ([], set_readpos 12 wrapped_store).
Proof.
  assert (Hok : Forall event_ok [sample_event; other_event]).
  { constructor; [exact (proj1 sample_event_ok)|].
    constructor; [exact (proj2 sample_event_ok)|constructor]. }
  assert (Hfit : headers_fit (buffer_size wrapped_store)
                   (readpos wrapped_store) [sample_event; other_event]).
  { cbn [headers_fit]. split; [now vm_compute|]. split; [now vm_compute|].
    exact I. }
  assert (Hring : ring_read (data wrapped_store) (readpos wrapped_store)
                    (len (events_bytes [sample_event; other_event]))
                  = events_bytes [sample_event; other_event])
    by (vm_compute; reflexivity).
  split; [exact Hok|]. split; [exact Hfit|]. split; [exact Hring|].
  exact (drain_decodes_events 3 0 0 0 wrapped_store
           [sample_event; other_event] eq_refl eq_refl eq_refl
           ltac:(now vm_compute) Hok eq_refl eq_refl Hring Hfit
           ltac:(cbn; lia)).
Defined.

(** ** Records with a bad length *)

(** X11.  When the loop reads a record whose [totallen] field is
    negative or above [MaxAllocSize], the call raises the ERROR of
    [palloc0] before anything is copied; when the field is between 0 and
    the length of the header, the copy of the header overruns the bytes
    that were requested. *)
Theorem call_on_bad_totallen (fuel : nat) (h : LoggingShmemHdr)
  (c : logged_data_ctx) (tl : Z) :
  loop_cond h c = true ->
  header_past_end h = false ->
  load_int (data h) (readpos h + off_totallen) = Ok tl ->
  (tl < 0 \/ MaxAllocSize < tl ->
   get_logged_data (S fuel) (Some c) h = Elog InvalidAllocSize)
  /\ (0 <= tl < ITEM_HDR_LEN ->
      get_logged_data (S fuel) (Some c) h = Fault).
Proof.
  intros Hc Hp Htl.
  pose proof (load_int_range _ _ _ Htl) as Hrange.
  unfold is_int32, MaxAllocSize, ITEM_HDR_LEN in *.
  assert (Hcall : get_logged_data (S fuel) (Some c) h = next_item h c).
  { unfold get_logged_data. cbn [bind]. now apply loop_extract. }
  rewrite Hcall. unfold next_item, alloc_item. rewrite Htl. cbn [bind].
  unfold palloc0, MaxAllocSize. split.
  - intros Hbad.
    replace (to_size_t tl <=? 1073741823) with false; [reflexivity|].
    symmetry. apply Z.leb_gt. destruct Hbad as [Hneg|Hbig].
    + unfold to_size_t.
      replace tl with (tl + 2 ^ 64 + (-1) * 2 ^ 64) by ring.
      rewrite Z.mod_add, Z.mod_small; lia.
    + rewrite to_size_t_small; lia.
  - intros Hsmall. rewrite to_size_t_small by lia.
    replace (tl <=? 1073741823) with true
      by (symmetry; apply Z.leb_le; lia).
    cbn [bind].
    replace (len (repeat x00 (Z.to_nat tl)) <? ITEM_HDR_LEN) with true;
      [reflexivity|].
    symmetry. apply Z.ltb_lt. unfold len, ITEM_HDR_LEN.
    rewrite repeat_length. lia.
Qed.

Lemma call_on_bad_totallen_witness :
  load_int (data (corrupt_store (-36))) (0 + off_totallen) = Ok (-36)
  /\ load_int (data (corrupt_store 12)) (0 + off_totallen) = Ok 12
  /\ get_logged_data 1 (Some corrupt_ctx) (corrupt_store (-36))
     = Elog InvalidAllocSize
  /\ get_logged_data 1 (Some corrupt_ctx) (corrupt_store 12) = Fault.
Proof.
  assert (H1 : load_int (data (corrupt_store (-36)))
                 (readpos (corrupt_store (-36)) + off_totallen) = Ok (-36))
    by (vm_compute; reflexivity).
  assert (H2 : load_int (data (corrupt_store 12))
                 (readpos (corrupt_store 12) + off_totallen) = Ok 12)
    by (vm_compute; reflexivity).
  split; [exact H1|]. split; [exact H2|]. split.
  - apply (proj1 (call_on_bad_totallen 0 (corrupt_store (-36)) corrupt_ctx
                    (-36) eq_refl eq_refl H1)).
    left. reflexivity.
  - apply (proj2 (call_on_bad_totallen 0 (corrupt_store 12) corrupt_ctx
                    12 eq_refl eq_refl H2)).
    now vm_compute.
Defined.

(** ** The order of the table *)

Lemma scan_levels_first (l : list ErrorLevel) (c : Z) (t : string) :
  scan_levels l c = Ok t ->
  exists front el back,
    l = front ++ el :: back
    /\ text el = Some t /\ code el = c
    /\ forall e, In e front -> text e = None \/ code e <> c.
Proof.
  induction l as [|el l IH]; cbn [scan_levels]; intros H; [discriminate H|].
  destruct (text el) as [t'|] eqn:Et; [destruct (code el =? c) eqn:Ec|].
  - injection H as ->. apply Z.eqb_eq in Ec.
    exists [], el, l. repeat split; try assumption. intros e [].
  - destruct (IH H) as (front & el' & back & -> & Ht & Hcode & Hfront).
    exists (el :: front), el', back. repeat split; try assumption.
    intros e [<-|Hin]; [|now apply Hfront].
    right. now apply Z.eqb_neq.
  - destruct (IH H) as (front & el' & back & -> & Ht & Hcode & Hfront).
    exists (el :: front), el', back. repeat split; try assumption.
    intros e [<-|Hin]; [|now apply Hfront].
    now left.
Qed.

(** X12.  The name that [errlevel_out] prints for a code is the name
    of the first slot of the table, in the order of the slots, that has
    a name and that code; slots without a name are passed over. *)
Theorem errlevel_out_first_slot (wl : list ErrorLevel) (c : Z) (t : string) :
  length wl = S MAX_HASH_VALUE ->
  errlevel_out wl c = Ok t ->
  exists front el back,
    wl = front ++ el :: back
    /\ text el = Some t /\ code el = c
    /\ forall e, In e front -> text e = None \/ code e <> c.
Proof.
  intros Hlen H. unfold errlevel_out in H.
  rewrite get_errlevel_name_scan in H by exact Hlen.
  now apply scan_levels_first.
Qed.

Lemma errlevel_out_first_slot_witness :
  length example_wordlist = S MAX_HASH_VALUE
  /\ errlevel_out example_wordlist 15 = Ok "log"%string
  /\ exists front el back,
      example_wordlist = front ++ el :: back
      /\ text el = Some "log"%string /\ code el = 15
      /\ forall e, In e front -> text e = None \/ code e <> 15.
Proof.
  split; [reflexivity|]. split; [reflexivity|].
  exact (errlevel_out_first_slot example_wordlist 15 "log" eq_refl eq_refl).
Defined.
